(** * Monte Carlo tree search player of agent.h

    A shallow embedding of the three player classes of [agent.h]
    ([agent], [random_player], [MCTS_player]) and of the search routines of
    [MCTS_player]: [selection], [expansion], [oneSim], [backPropagation] and
    [Simulation].  The accessors of [agent] and the class [player], which
    forwards to one of the two players, follow in a part of their own.

    The search tree of the source is a graph of heap-allocated [Node]s that
    point at each other ([parent], [child]); it is modelled as an arena
    ([list Node]) addressed by index, so that the in-place updates of
    [backPropagation] and [expansion] and the aliasing between a node and the
    entry of its parent's [child] vector are kept.

    [board.h] and [action.h] are not part of the sources at hand, and neither
    are the C++ library's random engine and floating-point unit.  They enter
    the development as interfaces ([Board], [Rng], [FloatArith]).

    Recursion that the source leaves unbounded ([selection],
    [backPropagation], the loop of [oneSim]) takes [fuel]; [None] is a run
    that dereferences a null or dangling pointer, or that [fuel] cut short.
    Two results are reported besides those of the source, for the statements
    to speak of: the visit counts that [selection] and the final loop of
    [Simulation] divide by, and the actions a rollout applies. *)

From Stdlib Require Import Ascii String ZArith QArith Qround Permutation Lia.
From stdpp Require Import base tactics option list gmap strings.

Local Open Scope Z_scope.

(** ** Pieces, placements and actions *)

(** [board::piece_type], as far as [agent.h] names its members. *)
Inductive piece_type := empty | black | white.

#[global] Instance piece_type_eq_dec : EqDecision piece_type.
Proof. solve_decision. Defined.

(** [action::place(i, who)]: a stone of colour [color] on cell [position]. *)
Record place := mkPlace { position : nat; color : piece_type }.

#[global] Instance place_eq_dec : EqDecision place.
Proof. solve_decision. Defined.

(** An [action] is a placement or the default-constructed [action()], the
    no-op that [random_player::take_action] returns when nothing is legal. *)
Definition action := option place.

(** ** Interfaces for what [agent.h] includes *)

(** The board.  [place_apply m b] is [move.apply(after)]: [Some after'] when
    the call returns [board::legal] and leaves [after'] in the board it was
    given, [None] for every other return value (the board is then dropped by
    each caller in [agent.h]). *)
Class Board := {
  board : Type;
  size_x : nat;
  size_y : nat;
  place_apply : place -> board -> option board
}.

(** [std::default_random_engine] and [std::shuffle] on the placement vector.
    [seed_engine v] is the engine after [engine.seed(int(meta["seed"]))] for
    the configured text [v]; it is [None] when the conversion throws. *)
Class Rng := {
  Engine : Type;
  default_engine : Engine;
  seed_engine : string -> option Engine;
  shuffle : list place -> Engine -> list place * Engine
}.

(** The floating-point operations the search uses.  Rounding and the width of
    each intermediate result belong to the operations; [f32] is the
    conversion at the assignment to [float value]. *)
Class FloatArith := {
  F : Type;
  int2f : Z -> F;
  fdiv : F -> F -> F;
  fadd : F -> F -> F;
  fmul : F -> F -> F;
  fsqrt : F -> F;
  flog : F -> F;
  f32 : F -> F;
  fgt : F -> F -> bool;
  f_m99999 : F
}.

(** ** [class agent]: the configuration map *)

Module Config.
Local Open Scope string_scope.

Definition is_space (c : ascii) : bool :=
  let n := nat_of_ascii c in
  (n =? 32)%nat || ((9 <=? n)%nat && (n <=? 13)%nat).

(** [ss >> pair]: the maximal runs of non-blank characters. *)
Fixpoint words_from (cur : string) (s : string) : list string :=
  match s with
  | EmptyString => if decide (cur = "") then [] else [cur]
  | String c s' =>
      if is_space c
      then (if decide (cur = "") then words_from "" s' else cur :: words_from "" s')
      else words_from (cur +:+ String c "") s'
  end.

Definition words (s : string) : list string := words_from "" s.

(** [pair.substr(0, pair.find('='))] and [pair.substr(pair.find('=') + 1)].
    Without an ['='], [find] is [npos]: the key is the whole token, and
    [npos + 1] wraps to 0, so the value is the whole token too. *)
Definition split_pair (pair : string) : string * string :=
  match String.index 0 "=" pair with
  | Some i => (String.substring 0 i pair,
               String.substring (S i) (String.length pair - S i) pair)
  | None => (pair, pair)
  end.

(** The constructor's loop over the tokens: [meta[key] = { value }]. *)
Fixpoint parse_pairs (ws : list string) (meta : gmap string string) : gmap string string :=
  match ws with
  | [] => meta
  | w :: ws' => let '(k, v) := split_pair w in parse_pairs ws' (<[k := v]> meta)
  end.

(** [agent::agent(args)]. *)
Definition agent_meta (args : string) : gmap string string :=
  parse_pairs (words ("name=unknown role=unknown " +:+ args)) ∅.

(** [s.find_first_of(set) != npos]. *)
Fixpoint has_any_of (set : string) (s : string) : bool :=
  match s with
  | EmptyString => false
  | String c s' =>
      match String.index 0 (String c "") set with
      | Some _ => true
      | None => has_any_of set s'
      end
  end.

End Config.

(** ** Machine integers *)

(** [int] is 32 bits wide: the value of an [int] expression is its
    mathematical value brought back into [-2^31, 2^31). *)
Definition int_wrap (z : Z) : Z := (z + 2 ^ 31) mod 2 ^ 32 - 2 ^ 31.

Definition INT_MAX : Z := 2 ^ 31 - 1.

(** ** The players *)

Section Players.
Context {BD : Board} {RNG : Rng}.

(** The members of [random_player] ([meta] comes from [agent]). *)
Record random_player := mkRandomPlayer {
  meta : gmap string string;
  space : list place;
  who : piece_type;
  engine : Engine
}.

(** [space[i] = action::place(i, who)] for [i] below [size_x * size_y]. *)
Definition init_space (w : piece_type) : list place :=
  map (fun i => mkPlace i w) (seq 0 (size_x * size_y)).

(** [random_player::random_player(args)]; [None] when it throws
    ([invalid name], [invalid role], or the seed's conversion). *)
Definition random_player_new (args : string) : option random_player :=
  let meta := Config.agent_meta args in
  engine ← match meta !! "seed"%string with
            | Some v => seed_engine v
            | None => Some default_engine
            end;
  name ← meta !! "name"%string;
  if Config.has_any_of "[]():; "%string name then None else
  role ← meta !! "role"%string;
  let who := if decide (role = "black"%string) then black else empty in
  let who := if decide (role = "white"%string) then white else who in
  if decide (who = empty) then None
  else Some (mkRandomPlayer meta (init_space who) who engine).

(** The loop of [random_player::take_action]: the first placement of the
    shuffled vector that is legal on a copy of [state]. *)
Fixpoint first_legal (moves : list place) (state : board) : action :=
  match moves with
  | [] => None
  | m :: rest =>
      match place_apply m state with
      | Some _ => Some m
      | None => first_legal rest state
      end
  end.

(** [random_player::take_action(state)]: the shuffle stays in the player. *)
Definition rp_take_action (p : random_player) (state : board) : action * random_player :=
  let '(sp, e) := shuffle (space p) (engine p) in
  (first_legal sp state, mkRandomPlayer (meta p) sp (who p) e).

(** Modelled from the spec: [action::apply] of [action.h], which is missing.
    A placement is applied by [place_apply]; the no-op sentinel [action()]
    is the move of a side that has no legal move, and applying it is not
    [board::legal] (the rollout ends on it). *)
Definition action_apply (a : action) (state : board) : option board :=
  match a with
  | Some m => place_apply m state
  | None => None
  end.

(** [MCTS_player]: a [random_player] with a simulation budget. *)
Record MCTS_player := mkMCTS {
  base : random_player;
  sim_counts : Z
}.

(** [MCTS_player::MCTS_player(args)]. *)
Definition MCTS_player_new (args : string) : option MCTS_player :=
  rp ← random_player_new args;
  Some (mkMCTS rp 100).

End Players.

(** ** The search tree and the search *)

Section Search.
Context {BD : Board} {RNG : Rng} {FA : FloatArith}.

(** A [Node*]: an index into the arena. [nullptr] is [None] of [option ptr]. *)
Abbreviation ptr := nat (only parsing).

(** [MCTS_player::Node].  [move] is [None] in a node whose [move] member was
    never assigned (the root). *)
Record Node := mkNode {
  visit : Z;
  win : Z;
  b : board;
  move : option place;
  parent : option ptr;
  child : list ptr
}.

(** The arena: node [p] lives at index [p]; [new Node()] appends. *)
Abbreviation heap := (list Node) (only parsing).

Definition set_counts (n : Node) (v w : Z) : Node :=
  mkNode v w (b n) (move n) (parent n) (child n).

Definition push_child (n : Node) (c : ptr) : Node :=
  mkNode (visit n) (win n) (b n) (move n) (parent n) (child n ++ [c]).

(** *** Floating-point expressions of the source

    [F] holds the [double] values; a [float] is a value in the image of
    [f32], and an operation on [float]s is the [double] operation rounded by
    [f32]. *)

(** [(float)win / visit]. *)
Definition win_rate (win visit : Z) : F :=
  f32 (fdiv (f32 (int2f win)) (f32 (int2f visit))).

(** [(float)current->win / current->visit
     + sqrt(2 * log(root->visit) / current->visit)], stored in a [float]. *)
Definition uct_value (root_visit win visit : Z) : F :=
  f32 (fadd (win_rate win visit)
            (fsqrt (fdiv (fmul (int2f 2) (flog (int2f root_visit))) (int2f visit)))).

(** *** [selection] *)

(** How the [for] loop of [selection] ends: by [return current] on a child
    that was never visited, or by running off the end with [bestNode]. *)
Inductive scan := Unvisited (current : ptr) | Best (bestNode : option ptr).

(** The [for] loop of [selection].  Besides its outcome it reports, in
    evaluation order, every [visit] it divided by (two divisions for each
    child whose value is computed). *)
Fixpoint selection_loop (h : heap) (root_visit : Z) (cs : list ptr)
    (bestNode : option ptr) (bestValue : F) : option (scan * list Z) :=
  match cs with
  | [] => Some (Best bestNode, [])
  | current :: rest =>
      c ← h !! current;
      if visit c =? 0 then Some (Unvisited current, [])
      else
        let value := uct_value root_visit (win c) (visit c) in
        '(r, d) ← (if fgt value bestValue
                   then selection_loop h root_visit rest (Some current) value
                   else selection_loop h root_visit rest bestNode bestValue);
        Some (r, visit c :: visit c :: d)
  end.

(** [selection(root)].  [None] stands for the dereference of a null or
    dangling pointer (and for exhausted [fuel]). *)
Fixpoint selection (fuel : nat) (h : heap) (root : option ptr) : option (ptr * list Z) :=
  match fuel with
  | O => None
  | S fuel' =>
      p ← root;
      n ← h !! p;
      match child n with
      | [] => Some (p, [])
      | _ :: _ =>
          '(r, d) ← selection_loop h (visit n) (child n) None f_m99999;
          match r with
          | Unvisited current => Some (current, d)
          | Best bestNode =>
              '(q, d') ← selection fuel' h bestNode;
              Some (q, d ++ d')
          end
      end
  end.

(** *** [expansion] *)

(** The [for] loop of [expansion] over the shuffled placements. *)
Fixpoint expansion_loop (node : ptr) (moves : list place) (h : heap) : option heap :=
  match moves with
  | [] => Some h
  | m :: rest =>
      n ← h !! node;
      match place_apply m (b n) with
      | Some after =>
          let newchild := length h in
          let h1 := h ++ [mkNode 0 0 after (Some m) (Some node) []] in
          expansion_loop node rest (<[node := push_child n newchild]> h1)
      | None => expansion_loop node rest h
      end
  end.

(** [expansion(node)]: shuffles the player's own [space] with its own
    [engine] and appends one child per legal placement. *)
Definition expansion (this : MCTS_player) (node : ptr) (h : heap)
    : option (MCTS_player * heap) :=
  let '(sp, e) := shuffle (space (base this)) (engine (base this)) in
  h' ← expansion_loop node sp h;
  Some (mkMCTS (mkRandomPlayer (meta (base this)) sp (who (base this)) e)
               (sim_counts this), h').

(** *** [oneSim] *)

(** The [while (true)] loop of [oneSim].  The result is the value of
    [MYTURN] at the [break], with the actions that were applied before it,
    in order. *)
Fixpoint oneSim_loop (fuel : nat) (myself opponent : random_player)
    (MYTURN : bool) (state : board) : option (bool * list action) :=
  match fuel with
  | O => None
  | S fuel' =>
      let '(move, myself', opponent') :=
        if MYTURN
        then let '(m, p) := rp_take_action myself state in (m, p, opponent)
        else let '(m, p) := rp_take_action opponent state in (m, myself, p) in
      match action_apply move state with
      | None => Some (MYTURN, [])
      | Some state' =>
          '(t, played) ← oneSim_loop fuel' myself' opponent' (negb MYTURN) state';
          Some (t, move :: played)
      end
  end.

(** The two rollout players [oneSim] allocates, as [(myself, opponent)].
    With [who] neither black nor white both pointers stay uninitialised. *)
Definition rollout_players (w : piece_type) : option (random_player * random_player) :=
  match w with
  | black =>
      myself ← random_player_new "name=black  role=black"%string;
      opponent ← random_player_new "name=white  role=white"%string;
      Some (myself, opponent)
  | white =>
      myself ← random_player_new "name=white  role=white"%string;
      opponent ← random_player_new "name=black  role=black"%string;
      Some (myself, opponent)
  | empty => None
  end.

(** [oneSim(node)], with the actions played. *)
Definition oneSim_run (fuel : nat) (this : MCTS_player) (node : Node)
    : option (bool * list action) :=
  '(myself, opponent) ← rollout_players (who (base this));
  '(MYTURN, played) ← oneSim_loop fuel myself opponent false (b node);
  Some (negb MYTURN, played).

(** [oneSim(node)]: [return !MYTURN]. *)
Definition oneSim (fuel : nat) (this : MCTS_player) (node : Node) : option bool :=
  fst <$> oneSim_run fuel this node.

(** *** [backPropagation] *)

(** [current->visit++; current->win += win;] on one node. *)
Definition bump (n : Node) (w : Z) : Node :=
  set_counts n (int_wrap (visit n + 1)) (int_wrap (win n + w)).

Fixpoint backPropagation (fuel : nat) (h : heap) (current : option ptr) (w : Z)
    : option heap :=
  match current with
  | None => Some h
  | Some p =>
      match fuel with
      | O => None
      | S fuel' =>
          n ← h !! p;
          backPropagation fuel' (<[p := bump n w]> h) (parent n) w
      end
  end.

(** *** [Simulation] *)

(** One pass of the body of the [for] loop of [Simulation]. *)
Definition iteration (fuel : nat) (this : MCTS_player) (root : ptr) (h : heap)
    : option (heap * list Z) :=
  '(current, d) ← selection fuel h (Some root);
  node ← h !! current;
  r ← oneSim fuel this node;
  let w := if r : bool then 1 else 0 in
  h' ← backPropagation fuel h (Some current) w;
  Some (h', d).

(** [for (int i = sim_counts; i > 0; --i)], run for [n] passes. *)
Fixpoint sim_loop (fuel : nat) (this : MCTS_player) (root : ptr) (n : nat)
    (h : heap) : option (heap * list Z) :=
  match n with
  | O => Some (h, [])
  | S n' =>
      '(h1, d1) ← iteration fuel this root h;
      '(h2, d2) ← sim_loop fuel this root n' h1;
      Some (h2, d1 ++ d2)
  end.

(** The final [for] loop of [Simulation] over [root->child]. *)
Fixpoint decision_loop (h : heap) (cs : list ptr) (bestWinRate : F)
    (bestmove : option place) : option (option place * list Z) :=
  match cs with
  | [] => Some (bestmove, [])
  | c :: rest =>
      n ← h !! c;
      if visit n =? 0 then decision_loop h rest bestWinRate bestmove
      else
        let winRate := win_rate (win n) (visit n) in
        '(m, d) ← (if fgt winRate bestWinRate
                   then decision_loop h rest winRate (move n)
                   else decision_loop h rest bestWinRate bestmove);
        Some (m, visit n :: d)
  end.

(** What a call of [Simulation] leaves behind: the action returned, the
    player (whose [space] and [engine] the expansion changed), the tree, and
    the divisors of all the divisions by a visit count, in evaluation order. *)
Record outcome := mkOutcome {
  chosen : action;
  player : MCTS_player;
  tree : heap;
  divisors : list Z
}.

(** The root of a call is the first node of its arena. *)
Definition root_ptr : ptr := 0%nat.

(** The statements of [Simulation] after the loop. *)
Definition decision (h : heap) : option (option place * list Z) :=
  root ← h !! root_ptr;
  c0 ← child root !! 0%nat;
  n0 ← h !! c0;
  let bestWinRate := win_rate (win n0) (visit n0) in
  let bestmove := move n0 in
  '(m, d) ← decision_loop h (child root) bestWinRate bestmove;
  Some (m, visit n0 :: d).

(** [Simulation(state)]. *)
Definition Simulation (fuel : nat) (this : MCTS_player) (state : board)
    : option outcome :=
  let h0 := [mkNode 0 0 state None None []] in
  '(this1, h1) ← expansion this root_ptr h0;
  root ← h1 !! root_ptr;
  match child root with
  | [] => Some (mkOutcome None this1 h1 [])
  | _ :: _ =>
      '(h2, d) ← sim_loop fuel this1 root_ptr (Z.to_nat (sim_counts this1)) h1;
      '(m, d') ← decision h2;
      Some (mkOutcome m this1 h2 (d ++ d'))
  end.

(** [MCTS_player::take_action(state)]. *)
Definition take_action (fuel : nat) (this : MCTS_player) (state : board)
    : option action :=
  chosen <$> Simulation fuel this state.

End Search.

Abbreviation ptr := nat (only parsing).
Abbreviation heap := (list Node) (only parsing).

(** ** Notions the statements are written with *)

Section Notions.
Context {BD : Board} {RNG : Rng} {FA : FloatArith}.

(** The other colour. *)
Definition opponent_of (w : piece_type) : piece_type :=
  match w with black => white | white => black | empty => empty end.

(** The side that moves at ply [i] of a rollout (plies count from 0). *)
Definition mover (w : piece_type) (i : nat) : piece_type :=
  if Nat.even i then opponent_of w else w.

(** No cell of the board takes a stone of colour [c]. *)
Definition no_legal_move (c : piece_type) (bd : board) : Prop :=
  ∀ i, (i < size_x * size_y)%nat → place_apply (mkPlace i c) bd = None.

(** The board after a list of actions, when each of them is legal in turn. *)
Fixpoint play (acts : list action) (bd : board) : option board :=
  match acts with
  | [] => Some bd
  | a :: rest => bd' ← action_apply a bd; play rest bd'
  end.

(** The nodes met by following [parent] links from [cur]. *)
Fixpoint ancestors (fuel : nat) (h : heap) (cur : option ptr) : list ptr :=
  match cur, fuel with
  | Some p, S fuel' =>
      match h !! p with
      | Some n => p :: ancestors fuel' h (parent n)
      | None => []
      end
  | _, _ => []
  end.

(** Every [parent] link points at an older node. *)
Definition parents_older (h : heap) : Prop :=
  ∀ p n q, h !! p = Some n → parent n = Some q → (q < p)%nat.

(** A node's counters as the data model wants them. *)
Definition counts_ok (n : Node) : Prop := 0 ≤ win n ≤ visit n.

(** Two trees that differ in their counters at most. *)
Definition same_shape (h h' : heap) : Prop :=
  length h' = length h ∧
  ∀ p n, h !! p = Some n →
    ∃ n', h' !! p = Some n' ∧ b n' = b n ∧ move n' = move n
          ∧ parent n' = parent n ∧ child n' = child n.

(** A tree of depth one: the root, and below it childless children only. *)
Definition depth_one (h : heap) : Prop :=
  ∃ root, h !! root_ptr = Some root ∧ parent root = None
    ∧ child root = seq 1 (length h - 1)
    ∧ ∀ p n, (0 < p)%nat → h !! p = Some n →
        parent n = Some root_ptr ∧ child n = [].

(** The tree [Simulation] starts from. *)
Definition root_only (state : board) : heap := [mkNode 0 0 state None None []].

(** [c] is the first child of the list that was never visited. *)
Definition first_unvisited (h : heap) (cs : list ptr) (c : ptr) : Prop :=
  ∃ i n, cs !! i = Some c ∧ h !! c = Some n ∧ visit n = 0
    ∧ ∀ j c' n', (j < i)%nat → cs !! j = Some c' → h !! c' = Some n' → visit n' ≠ 0.



(** *** Assumptions on the interfaces *)

(** [std::shuffle] rearranges. *)
Definition shuffle_permutes : Prop :=
  ∀ l e, Permutation (shuffle l e).1 l.

(** A legal placement uses up something of the board. *)
Definition decreasing (μ : board → nat) : Prop :=
  ∀ m bd bd', place_apply m bd = Some bd' → (μ bd' < μ bd)%nat.

(** A score computed from counters [0 ≤ w ≤ v], [0 < v ≤ rv] compares
    greater than [-99999.0f]. *)
Definition uct_above_floor : Prop :=
  ∀ rv w v, 0 ≤ w ≤ v → 0 < v ≤ rv → fgt (uct_value rv w v) f_m99999 = true.

(** On counters up to [bound], the rounded quotients compare as the exact
    ones do. *)
Definition ratio_exact (bound : Z) : Prop :=
  ∀ w v w' v', 0 ≤ w ≤ v → 0 < v ≤ bound → 0 ≤ w' ≤ v' → 0 < v' ≤ bound →
    fgt (win_rate w v) (win_rate w' v') = (w' * v <? w * v').


(** The player's [space] holds the placements of its colour, in some order. *)
Definition space_ok (p : random_player) : Prop :=
  (who p = black ∨ who p = white) ∧ Permutation (space p) (init_space (who p)).

(** The side on move at ply [i] when the loop is entered with [MYTURN = t]. *)
Definition side (w : piece_type) (t : bool) (i : nat) : piece_type :=
  if xorb t (Nat.odd i) then w else opponent_of w.


(** The children [expansion] makes for the placements [moves] on [bd]. *)
Fixpoint legal_children (node : ptr) (moves : list place) (bd : board) : list Node :=
  match moves with
  | [] => []
  | m :: rest =>
      match place_apply m bd with
      | Some after => mkNode 0 0 after (Some m) (Some node) [] :: legal_children node rest bd
      | None => legal_children node rest bd
      end
  end.

(** The tree after the root of [root_only state] was expanded. *)
Definition expanded (state : board) (sp : list place) : heap :=
  mkNode 0 0 state None None (seq 1 (length (legal_children root_ptr sp state)))
  :: legal_children root_ptr sp state.

(** After [k] passes: the root was visited [k] times, and every node has
    [0 ≤ win ≤ visit ≤ k]. *)
Definition counted (h : heap) (k : Z) : Prop :=
  (∃ r, h !! root_ptr = Some r ∧ visit r = k) ∧
  ∀ p n, h !! p = Some n → 0 ≤ win n ≤ visit n ∧ visit n ≤ k.

(** Every rollout from a node of the tree ends within [fuel] plies. *)
Definition bounded (μ : board → nat) (fuel : nat) (h : heap) : Prop :=
  ∀ p n, h !! p = Some n → (μ (b n) < fuel)%nat.

(** Visit counts only grow from [h] to [h']. *)
Definition grown (h h' : heap) : Prop :=
  ∀ p n n', h !! p = Some n → h' !! p = Some n' → visit n ≤ visit n'.

(** The first child of the root was visited. *)
Definition first_seen (h : heap) : Prop :=
  ∀ r c1 rest n1, h !! root_ptr = Some r → child r = c1 :: rest →
    h !! c1 = Some n1 → 1 ≤ visit n1.

(** [c] is the visited child of [r] with the greatest quotient
    [win / visit], and the first of the list to reach it. *)
Definition best_rate (h : heap) (r : Node) (c : ptr) : Prop :=
  ∃ i n, child r !! i = Some c ∧ h !! c = Some n ∧ 0 < visit n
    ∧ ∀ j c' n', child r !! j = Some c' → h !! c' = Some n' → 0 < visit n' →
        win n' * visit n ≤ win n * visit n'
        ∧ ((j < i)%nat → win n' * visit n < win n * visit n').

(** The counters of a node all of whose rollouts had the same outcome. *)
Definition repeated (fuel : nat) (this : MCTS_player) (n : Node) : Prop :=
  (visit n = 0 ∧ win n = 0)
  ∨ ∃ r : bool, oneSim fuel this n = Some r ∧ win n = if r then visit n else 0.

(** The player after the expansion of the root. *)
Definition shuffled (this : MCTS_player) : MCTS_player :=
  mkMCTS (mkRandomPlayer (meta (base this))
            (shuffle (space (base this)) (engine (base this))).1
            (who (base this))
            (shuffle (space (base this)) (engine (base this))).2)
         (sim_counts this).

(** The tree after the expansion of the root. *)
Definition first_tree (this : MCTS_player) (state : board) : heap :=
  expanded state (space (base (shuffled this))).

End Notions.

(** ** The selection policy in the specification's words *)

Section SpecNotions.
Context {BD : Board} {RNG : Rng} {FA : FloatArith}.






End SpecNotions.

(** ** The rest of [agent.h]

    The accessors of [agent], the class [player] that forwards to a
    [random_player] or an [MCTS_player], and the notions their statements are
    written with. *)

(** [agent::property] and [agent::notify]. *)
Module Agent.

(** [property(key)] is [meta.at(key)]: [None] when [at] throws. *)
Definition property (meta : gmap string string) (key : string) : option string :=
  meta !! key.

(** [notify(msg)]: [meta[msg.substr(0, msg.find('='))] = { msg.substr(msg.find('=') + 1) }]. *)
Definition notify (msg : string) (meta : gmap string string) : gmap string string :=
  let '(k, v) := Config.split_pair msg in <[k := v]> meta.

Definition name (meta : gmap string string) : option string := property meta "name".
Definition role (meta : gmap string string) : option string := property meta "role".

End Agent.

(** No character of [s] is blank. *)
Fixpoint blank_free (s : string) : bool :=
  match s with
  | EmptyString => true
  | String c s' => negb (Config.is_space c) && blank_free s'
  end.

(** The map the constructor starts from before it reads [args]. *)
Definition default_meta : gmap string string :=
  <["role"%string := "unknown"%string]> (<["name"%string := "unknown"%string]> ∅).

Section MoreNotions.
Context {BD : Board} {RNG : Rng} {FA : FloatArith}.

(** An answer of an agent playing [w] on [state]: a legal placement of its
    own colour, or the no-op when there is none. *)
Definition fair_answer (w : piece_type) (state : board) (a : action) : Prop :=
  match a with
  | Some m => color m = w ∧ (position m < size_x * size_y)%nat
              ∧ is_Some (place_apply m state)
  | None => no_legal_move w state
  end.

(** [n] with the children [cs] pushed onto its [child] vector. *)
Definition with_children (n : Node) (cs : list nat) : Node :=
  mkNode (visit n) (win n) (b n) (move n) (parent n) (child n ++ cs).

(** The sum of a counter over the nodes below the root. *)
Definition children_sum (g : Node → Z) (h : list Node) : Z :=
  foldr (λ n s, g n + s) 0 (tail h).

(** In a tree whose first [k] children were visited once and the others
    never. *)
Definition round_robin (k : nat) (h : list Node) : Prop :=
  ∀ p x, (0 < p)%nat → h !! p = Some x →
    visit x = if (p <=? k)%nat then 1 else 0.

End MoreNotions.

(** [class player]: a [random_player] that forwards [take_action] to the
    agent its constructor picked. *)
Module Player.
Section Def.
Context {BD : Board} {RNG : Rng} {FA : FloatArith}.

(** What [myAgent] points to. *)
Inductive delegate :=
  | Random (p : random_player)
  | Mcts (p : MCTS_player).

(** The members: the [random_player] base object, and [myAgent], which is
    [None] while the pointer was never assigned. *)
Record t := mk {
  self : random_player;
  myAgent : option delegate
}.

(** [args.substr(args.find("search=") + 7)] cut at its first [" "]; [None]
    when [find] is [npos]. *)
Definition search_option (args : string) : option string :=
  i ← String.index 0 "search=" args;
  let search := String.substring (i + 7) (String.length args - (i + 7)) args in
  Some match String.index 0 " " search with
       | Some j => String.substring 0 j search
       | None => search
       end.

(** [player::player(args)]; [None] when a constructor throws. *)
Definition new (args : string) : option t :=
  rp ← random_player_new args;
  match search_option args with
  | Some search =>
      if decide (search = "MCTS"%string)
      then m ← MCTS_player_new args; Some (mk rp (Some (Mcts m)))
      else Some (mk rp None)
  | None => r ← random_player_new args; Some (mk rp (Some (Random r)))
  end.

(** [player::take_action(state)]: [myAgent->take_action(state)], [None] when
    [myAgent] was never assigned (or the search runs out of [fuel]). *)
Definition take_action (fuel : nat) (pl : t) (state : board) : option (action * t) :=
  d ← myAgent pl;
  match d with
  | Random p =>
      let '(a, p') := rp_take_action p state in
      Some (a, mk (self pl) (Some (Random p')))
  | Mcts m =>
      out ← Simulation fuel m state;
      Some (chosen out, mk (self pl) (Some (Mcts (player out))))
  end.

(** [myAgent] points to an agent of the player's colour that holds every
    placement of that colour. *)
Definition ready (pl : t) : Prop :=
  match myAgent pl with
  | Some (Random r) => space_ok r ∧ who r = who (self pl)
  | Some (Mcts m) =>
      space_ok (base m) ∧ who (base m) = who (self pl) ∧ sim_counts m = 100
  | None => False
  end.

End Def.
End Player.

(** ** A small instance to run the search on

    A row of four cells.  A stone may be put on a free cell that has no stone
    of the other colour next to it.  The engine is a counter, a shuffle
    rotates the vector by the counter, and the arithmetic is exact on
    quotients of counts with integer approximations of [sqrt] and [log]. *)

Module Toy.

Definition cell (bd : list piece_type) (i : nat) : piece_type :=
  default empty (bd !! i).

Definition toy_place (m : place) (bd : list piece_type) : option (list piece_type) :=
  let i := position m in
  let c := color m in
  if decide (c = empty) then None
  else if negb (i <? length bd)%nat then None
  else if negb (bool_decide (cell bd i = empty)) then None
  else if bool_decide (cell bd (i + 1) = opponent_of c) then None
  else if (0 <? i)%nat && bool_decide (cell bd (i - 1) = opponent_of c) then None
  else Some (<[i := c]> bd).

#[export] Instance toy_board : Board := {|
  board := list piece_type;
  size_x := 4;
  size_y := 1;
  place_apply := toy_place
|}.

Definition toy_shuffle (l : list place) (e : nat) : list place * nat :=
  (rotate e l, S e).

#[export] Instance toy_rng : Rng := {|
  Engine := nat;
  default_engine := 0%nat;
  seed_engine := fun v => Some (String.length v);
  shuffle := toy_shuffle
|}.

Definition toy_sqrt (q : Q) : Q :=
  (inject_Z (Z.sqrt (Qfloor (q * 1000000))) / 1000)%Q.

Definition toy_log (q : Q) : Q :=
  (inject_Z (Z.log2 (Qfloor q)) * (7 # 10))%Q.

#[export] Instance toy_float : FloatArith := {|
  F := Q;
  int2f := inject_Z;
  fdiv := Qdiv;
  fadd := Qplus;
  fmul := Qmult;
  fsqrt := toy_sqrt;
  flog := toy_log;
  f32 := Qred;
  fgt := fun x y => negb (Qle_bool x y);
  f_m99999 := (-99999 # 1)%Q
|}.

(** The number of free cells: what every legal placement uses up. *)
Definition free_cells (bd : list piece_type) : nat :=
  length (filter (fun c => c = empty) bd).

Definition empty_board : @board toy_board := replicate 4 empty.

Definition black_player : option MCTS_player := MCTS_player_new "name=me role=black search=MCTS"%string.
Definition seeded_player : option MCTS_player := MCTS_player_new "name=me role=black search=MCTS seed=12345"%string.

Definition toy_black : MCTS_player :=
  mkMCTS (mkRandomPlayer (Config.agent_meta "name=me role=black search=MCTS")
            (init_space black) black 0%nat) 100.
Definition toy_seeded : MCTS_player :=
  mkMCTS (mkRandomPlayer (Config.agent_meta "name=me role=black search=MCTS seed=12345")
            (init_space black) black 5%nat) 100.
Definition full_board : @board toy_board := [black; white; black; white].
Definition toy_node (bd : @board toy_board) : Node := mkNode 0 0 bd None None [].
Definition toy_tree (k : nat) : option (list Node) :=
  fst <$> sim_loop 10 (shuffled toy_black) root_ptr k (first_tree toy_black empty_board).

Definition toy_tree_1 : list Node := Eval vm_compute in default [] (toy_tree 1).

(** A searching player without a budget, and a [player] whose agent is the
    searching player. *)
Definition toy_idle : MCTS_player := mkMCTS (base toy_black) 0.
Definition toy_player : Player.t :=
  Player.mk (base toy_black) (Some (Player.Mcts toy_black)).

End Toy.

(** * Proofs *)

Section RolloutPlayers.
Context {BD : Board} {RNG : Rng}.

Lemma random_player_new_black :
  random_player_new "name=black  role=black"
  = Some (mkRandomPlayer (Config.agent_meta "name=black  role=black")
            (init_space black) black default_engine).
Proof.
  unfold random_player_new.
  replace (Config.agent_meta "name=black  role=black" !! "seed"%string)
    with (@None string) by (vm_compute; reflexivity).
  replace (Config.agent_meta "name=black  role=black" !! "name"%string)
    with (Some "black"%string) by (vm_compute; reflexivity).
  replace (Config.agent_meta "name=black  role=black" !! "role"%string)
    with (Some "black"%string) by (vm_compute; reflexivity).
  reflexivity.
Qed.

Lemma random_player_new_white :
  random_player_new "name=white  role=white"
  = Some (mkRandomPlayer (Config.agent_meta "name=white  role=white")
            (init_space white) white default_engine).
Proof.
  unfold random_player_new.
  replace (Config.agent_meta "name=white  role=white" !! "seed"%string)
    with (@None string) by (vm_compute; reflexivity).
  replace (Config.agent_meta "name=white  role=white" !! "name"%string)
    with (Some "white"%string) by (vm_compute; reflexivity).
  replace (Config.agent_meta "name=white  role=white" !! "role"%string)
    with (Some "white"%string) by (vm_compute; reflexivity).
  reflexivity.
Qed.

(** What the constructors establish. *)
Lemma random_player_new_spec args p :
  random_player_new args = Some p →
  space_ok p ∧ meta p = Config.agent_meta args.
Proof.
  unfold random_player_new. intros Hnew.
  apply bind_Some in Hnew as (e & _ & Hnew).
  apply bind_Some in Hnew as (name & _ & Hnew).
  destruct (Config.has_any_of _ name); [done|].
  apply bind_Some in Hnew as (role & _ & Hnew).
  destruct (decide (role = "white"%string)) as [Hw | Hw].
  - simpl in Hnew. injection Hnew as <-. split; [|done].
    split; [by right | reflexivity].
  - destruct (decide (role = "black"%string)) as [Hb | Hb]; [|done].
    simpl in Hnew. injection Hnew as <-. split; [|done].
    split; [by left | reflexivity].
Qed.

Lemma MCTS_player_new_spec args p :
  MCTS_player_new args = Some p → space_ok (base p) ∧ sim_counts p = 100.
Proof.
  unfold MCTS_player_new. intros Hnew.
  apply bind_Some in Hnew as (rp & Hrp & [= <-]).
  split; [|done]. by destruct (random_player_new_spec args rp Hrp).
Qed.

Lemma rollout_players_spec w :
  w = black ∨ w = white →
  ∃ me op, rollout_players w = Some (me, op)
    ∧ space_ok me ∧ who me = w ∧ space_ok op ∧ who op = opponent_of w
    ∧ engine me = default_engine ∧ engine op = default_engine
    ∧ meta me !! "seed"%string = None ∧ meta op !! "seed"%string = None.
Proof.
  intros [-> | ->]; unfold rollout_players;
    rewrite random_player_new_black, random_player_new_white; simpl;
    eexists _, _; (split; [reflexivity|]); simpl;
    repeat split; auto; by vm_compute.
Qed.

End RolloutPlayers.

Section Rollout.
Context {BD : Board} {RNG : Rng}.

Lemma first_legal_Some moves st m :
  first_legal moves st = Some m → m ∈ moves ∧ is_Some (place_apply m st).
Proof.
  induction moves as [|x rest IH]; simpl; [done|].
  destruct (place_apply x st) eqn:E.
  - intros [= <-]. split; [left | by rewrite E].
  - intros Hm. destruct (IH Hm). split; [by right | done].
Qed.

Lemma first_legal_None moves st :
  first_legal moves st = None → ∀ m, m ∈ moves → place_apply m st = None.
Proof.
  induction moves as [|x rest IH]; simpl; intros Hn m Hm.
  - by apply elem_of_nil in Hm.
  - destruct (place_apply x st) eqn:E; [done|].
    apply elem_of_cons in Hm as [-> | Hm]; auto.
Qed.

Lemma first_legal_exists moves st m :
  m ∈ moves → is_Some (place_apply m st) → is_Some (first_legal moves st).
Proof.
  intros Hm Hl. destruct (first_legal moves st) eqn:E; [done|].
  rewrite (first_legal_None _ _ E m Hm) in Hl. by destruct Hl.
Qed.

Lemma elem_of_init_space m w :
  m ∈ init_space w ↔ ∃ i, (i < size_x * size_y)%nat ∧ m = mkPlace i w.
Proof.
  unfold init_space. rewrite list_elem_of_In, in_map_iff. split.
  - intros (i & <- & Hi). apply in_seq in Hi. exists i. split; [lia | done].
  - intros (i & Hi & ->). exists i. split; [done|]. apply in_seq. lia.
Qed.

Lemma rp_take_action_space_ok p st :
  shuffle_permutes → space_ok p → space_ok (rp_take_action p st).2
  ∧ who (rp_take_action p st).2 = who p.
Proof.
  intros Hs [Hw Hp]. unfold rp_take_action.
  pose proof (Hs (space p) (engine p)) as Hperm.
  destruct (shuffle (space p) (engine p)) as [sp e]. simpl in *.
  split; [|done]. split; [done|]. simpl. by etrans.
Qed.

Lemma rp_take_action_move p st :
  shuffle_permutes → space_ok p →
  match (rp_take_action p st).1 with
  | Some m => ∃ i, m = mkPlace i (who p) ∧ is_Some (place_apply m st)
  | None => no_legal_move (who p) st
  end.
Proof.
  intros Hs [Hw Hp]. unfold rp_take_action.
  pose proof (Hs (space p) (engine p)) as Hperm.
  destruct (shuffle (space p) (engine p)) as [sp e]. simpl in *.
  destruct (first_legal sp st) as [m|] eqn:E.
  - apply first_legal_Some in E as [Hin Hl].
    rewrite Hperm, Hp in Hin. apply elem_of_init_space in Hin as (i & _ & ->).
    eauto.
  - intros i Hi. apply (first_legal_None _ _ E).
    rewrite Hperm, Hp. apply elem_of_init_space. eauto.
Qed.

Lemma side_S w t i : side w t (S i) = side w (negb t) i.
Proof.
  unfold side. rewrite Nat.odd_succ, <- Nat.negb_odd.
  by destruct t, (Nat.odd i).
Qed.

Lemma oneSim_loop_spec (μ : board → nat) w :
  shuffle_permutes → decreasing μ →
  ∀ fuel me op t st,
    space_ok me → who me = w → space_ok op → who op = opponent_of w →
    (μ st < fuel)%nat →
    ∃ played final,
      oneSim_loop fuel me op t st = Some (xorb t (Nat.odd (length played)), played)
      ∧ play played st = Some final
      ∧ (∀ i a, played !! i = Some a → ∃ pos, a = Some (mkPlace pos (side w t i)))
      ∧ no_legal_move (side w t (length played)) final.
Proof.
  intros Hs Hd fuel. induction fuel as [|fuel IH]; intros me op t st Hme Hwme Hop Hwop Hf; [lia|].
  simpl.
  set (actor := if t then me else op).
  assert (Hactor : space_ok actor ∧ who actor = side w t 0).
  { unfold actor, side. simpl. destruct t; simpl; auto. }
  destruct Hactor as [Hok Hwho].
  pose proof (rp_take_action_move actor st Hs Hok) as Hmv.
  pose proof (rp_take_action_space_ok actor st Hs Hok) as [Hok' Hwho'].
  assert (Hshape : (if t
            then let '(m, p) := rp_take_action me st in (m, p, op)
            else let '(m, p) := rp_take_action op st in (m, me, p))
          = ((rp_take_action actor st).1,
             (if t then (rp_take_action actor st).2 else me),
             (if t then op else (rp_take_action actor st).2))).
  { unfold actor. destruct t; by destruct (rp_take_action _ st). }
  rewrite Hshape. clear Hshape.
  destruct (rp_take_action actor st) as [mv actor'] eqn:Eact. simpl in *.
  destruct mv as [m|]; simpl.
  - destruct Hmv as (pos & -> & [st' Hst']). rewrite Hst'.
    destruct (IH (if t then actor' else me) (if t then op else actor') (negb t) st')
      as (played & final & Hrun & Hplay & Hcol & Hend).
    + unfold actor in *; destruct t; auto.
    + unfold actor in *; destruct t; [congruence | done].
    + unfold actor in *; destruct t; auto.
    + unfold actor in *; destruct t; [done | congruence].
    + apply Hd in Hst'. lia.
    + exists (Some (mkPlace pos (who actor)) :: played), final.
      rewrite Hrun. simpl. rewrite Hst'. simpl.
      split; [|split; [done|split]].
      * rewrite Nat.odd_succ, <- Nat.negb_odd.
        by destruct t, (Nat.odd (length played)).
      * intros [|i] a; simpl.
        -- intros [= <-]. exists pos. by rewrite Hwho.
        -- intros Hi. rewrite side_S. eauto.
      * by rewrite side_S.
  - exists [], st. simpl. rewrite xorb_false_r. split; [done|].
    split; [done|]. split; [intros i a; by rewrite lookup_nil|].
    by rewrite <- Hwho.
Qed.

End Rollout.

Section Selection.
Context {BD : Board} {RNG : Rng} {FA : FloatArith}.





Lemma selection_loop_unvisited h rv cs c :
  (∀ c', c' ∈ cs → is_Some (h !! c')) →
  first_unvisited h cs c →
  ∀ bn bv, ∃ d, selection_loop h rv cs bn bv = Some (Unvisited c, d).
Proof.
  intros Hall (i & n & Hi & Hn & Hv & Hbefore).
  revert i Hi Hbefore. induction cs as [|x rest IH]; intros i Hi Hbefore bn bv.
  - by rewrite lookup_nil in Hi.
  - simpl. destruct i as [|i].
    + simpl in Hi. injection Hi as ->. rewrite Hn. simpl.
      rewrite Hv. simpl. eauto.
    + destruct (Hall x) as [nx Hx]; [left|].
      rewrite Hx. simpl.
      assert (visit nx ≠ 0) as Hnz by (eapply (Hbefore 0%nat); [lia|done..]).
      apply Z.eqb_neq in Hnz. rewrite Hnz.
      assert (IH' : ∀ bn bv, ∃ d, selection_loop h rv rest bn bv = Some (Unvisited c, d)).
      { apply (IH (λ c' Hc', Hall c' (list_elem_of_further _ _ _ Hc')) i Hi).
        intros j c' n' Hj. apply (Hbefore (S j)). lia. }
      destruct (fgt _ bv).
      * destruct (IH' (Some x) (uct_value rv (win nx) (visit nx))) as [d ->]. simpl. eauto.
      * destruct (IH' bn bv) as [d ->]. simpl. eauto.
Qed.



End Selection.

Lemma int_wrap_small z : - 2 ^ 31 ≤ z < 2 ^ 31 → int_wrap z = z.
Proof.
  intros Hz. unfold int_wrap.
  rewrite Z.mod_small by lia. lia.
Qed.

Section Tree.
Context {BD : Board} {RNG : Rng} {FA : FloatArith}.

Lemma expansion_loop_root moves :
  ∀ r ks,
    expansion_loop root_ptr moves (r :: ks)
    = Some (mkNode (visit r) (win r) (b r) (move r) (parent r)
              (child r ++ seq (S (length ks))
                              (length (legal_children root_ptr moves (b r))))
            :: ks ++ legal_children root_ptr moves (b r)).
Proof.
  induction moves as [|m rest IH]; intros r ks; simpl.
  - rewrite !app_nil_r. by destruct r.
  - destruct (place_apply m (b r)) as [after|] eqn:E; [|apply IH].
    rewrite (IH (push_child r (S (length ks)))). simpl.
    rewrite length_app. simpl.
    rewrite <- !app_assoc. simpl.
    replace (length ks + 1)%nat with (S (length ks)) by lia.
    done.
Qed.

Lemma legal_children_spec node moves bd n :
  n ∈ legal_children node moves bd →
  visit n = 0 ∧ win n = 0 ∧ parent n = Some node ∧ child n = []
  ∧ ∃ m, move n = Some m ∧ m ∈ moves ∧ place_apply m bd = Some (b n).
Proof.
  induction moves as [|m rest IH]; simpl.
  - intros Hn. by apply elem_of_nil in Hn.
  - destruct (place_apply m bd) as [after|] eqn:E.
    + intros [-> | Hn]%elem_of_cons.
      * simpl. repeat split; auto. exists m. split; [done|]. split; [left | done].
      * destruct (IH Hn) as (?&?&?&?& m' &?&?&?). repeat split; auto.
        exists m'. split; [done|]. split; [by right | done].
    + intros Hn. destruct (IH Hn) as (?&?&?&?& m' &?&?&?). repeat split; auto.
      exists m'. split; [done|]. split; [by right | done].
Qed.

Lemma legal_children_nonempty node moves bd m :
  m ∈ moves → is_Some (place_apply m bd) → legal_children node moves bd ≠ [].
Proof.
  induction moves as [|x rest IH]; simpl.
  - intros Hm. by apply elem_of_nil in Hm.
  - intros [-> | Hm]%elem_of_cons Hl.
    + destruct Hl as [a ->]. done.
    + destruct (place_apply x bd); [done | auto].
Qed.

Lemma legal_children_empty node moves bd :
  (∀ m, m ∈ moves → place_apply m bd = None) → legal_children node moves bd = [].
Proof.
  induction moves as [|x rest IH]; simpl; [done|].
  intros Hall. rewrite (Hall x) by left. apply IH. intros m Hm. apply Hall. by right.
Qed.

Lemma expansion_root_only this state :
  expansion this root_ptr (root_only state)
  = Some (mkMCTS (mkRandomPlayer (meta (base this))
                    (shuffle (space (base this)) (engine (base this))).1
                    (who (base this))
                    (shuffle (space (base this)) (engine (base this))).2)
                 (sim_counts this),
          expanded state (shuffle (space (base this)) (engine (base this))).1).
Proof.
  unfold expansion, root_only.
  destruct (shuffle (space (base this)) (engine (base this))) as [sp e].
  rewrite expansion_loop_root. simpl. done.
Qed.

Lemma expanded_depth_one state sp : depth_one (expanded state sp).
Proof.
  unfold depth_one, expanded. eexists. split; [done|]. simpl.
  split; [done|]. split.
  - by rewrite Nat.sub_0_r.
  - intros [|p] n Hp; [lia|]. simpl. intros Hn.
    apply list_elem_of_lookup_2 in Hn.
    apply legal_children_spec in Hn as (?&?&?&?&?). done.
Qed.

Lemma expanded_fresh state sp p n :
  expanded state sp !! p = Some n → visit n = 0 ∧ win n = 0.
Proof.
  destruct p as [|p]; simpl.
  - by intros [= <-].
  - intros Hn. apply list_elem_of_lookup_2 in Hn.
    apply legal_children_spec in Hn as (?&?&?). done.
Qed.

Lemma same_shape_refl h : same_shape h h.
Proof. split; [done|]. intros p n Hn. eauto 10. Qed.

Lemma same_shape_trans h1 h2 h3 :
  same_shape h1 h2 → same_shape h2 h3 → same_shape h1 h3.
Proof.
  intros [Hl1 H1] [Hl2 H2]. split; [congruence|].
  intros p n Hn. destruct (H1 p n Hn) as (n' & Hn' & ?&?&?&?).
  destruct (H2 p n' Hn') as (n'' & Hn'' & ?&?&?&?).
  exists n''. repeat split; congruence.
Qed.

Lemma same_shape_bump h p n w :
  h !! p = Some n → same_shape h (<[p := bump n w]> h).
Proof.
  intros Hp. split; [by rewrite length_insert|].
  intros q nq Hq. destruct (decide (q = p)) as [-> | Hne].
  - rewrite list_lookup_insert_eq by (by eapply lookup_lt_Some).
    assert (nq = n) as -> by congruence.
    eexists. split; [done|]. done.
  - rewrite list_lookup_insert_ne by done. eauto 10.
Qed.

Lemma same_shape_lookup_inv h h' p n' :
  same_shape h h' → h' !! p = Some n' →
  ∃ n, h !! p = Some n ∧ b n' = b n ∧ move n' = move n
       ∧ parent n' = parent n ∧ child n' = child n.
Proof.
  intros [Hl Hs] Hp.
  assert (p < length h)%nat as Hlt by (rewrite <- Hl; by eapply lookup_lt_Some).
  apply lookup_lt_is_Some in Hlt as [n Hn].
  destruct (Hs p n Hn) as (n2 & Hn2 & ?&?&?&?).
  assert (n2 = n') as -> by congruence. eauto 10.
Qed.

Lemma depth_one_same_shape h h' : same_shape h h' → depth_one h → depth_one h'.
Proof.
  intros Hs (r & Hr & Hpar & Hch & Hkids).
  pose proof Hs as [Hl Hs'].
  destruct (Hs' _ _ Hr) as (r' & Hr' & _ & _ & Hp' & Hc').
  exists r'. split; [done|]. split; [congruence|]. split; [congruence|].
  intros p n' Hp Hn'.
  destruct (same_shape_lookup_inv _ _ _ _ Hs Hn') as (n & Hn & _ & _ & ? & ?).
  destruct (Hkids p n Hp Hn). split; congruence.
Qed.

Lemma ancestors_same_shape fuel h h' cur :
  same_shape h h' → ancestors fuel h' cur = ancestors fuel h cur.
Proof.
  intros Hs. revert cur. induction fuel as [|fuel IH]; intros [p|]; simpl; try done.
  destruct (h !! p) as [n|] eqn:Hn.
  - destruct Hs as [_ Hs']. destruct (Hs' p n Hn) as (n' & -> & _ & _ & -> & _).
    by rewrite IH.
  - destruct (h' !! p) as [n'|] eqn:Hn'; [|done].
    destruct (same_shape_lookup_inv _ _ _ _ Hs Hn') as (n & Hn2 & _). congruence.
Qed.

Lemma parents_older_same_shape h h' :
  same_shape h h' → parents_older h → parents_older h'.
Proof.
  intros Hs Hpo p n' q Hn' Hq.
  destruct (same_shape_lookup_inv _ _ _ _ Hs Hn') as (n & Hn & _ & _ & Hp & _).
  eapply Hpo; [done | congruence].
Qed.

Lemma ancestors_le fuel h p q :
  parents_older h → q ∈ ancestors fuel h (Some p) → (q ≤ p)%nat.
Proof.
  intros Hpo. revert p. induction fuel as [|fuel IH]; intros p; simpl.
  - intros Hq. by apply elem_of_nil in Hq.
  - destruct (h !! p) as [n|] eqn:Hn; [|intros Hq; by apply elem_of_nil in Hq].
    intros [-> | Hq]%elem_of_cons; [lia|].
    destruct (parent n) as [q'|] eqn:Hpar.
    + pose proof (Hpo p n q' Hn Hpar). apply IH in Hq. lia.
    + destruct fuel; simpl in Hq; by apply elem_of_nil in Hq.
Qed.

(** [backPropagation] on a tree whose parent links point at older nodes. *)
Lemma backPropagation_spec w :
  ∀ fuel h p,
    parents_older h → (p < fuel)%nat → (p < length h)%nat →
    ∃ h', backPropagation fuel h (Some p) w = Some h'
      ∧ same_shape h h'
      ∧ ∀ q n, h !! q = Some n →
          h' !! q = Some (if bool_decide (q ∈ ancestors fuel h (Some p))
                          then bump n w else n).
Proof.
  induction fuel as [|fuel IH]; intros h p Hpo Hf Hlen; [lia|].
  simpl. apply lookup_lt_is_Some in Hlen as [n Hn]. rewrite Hn. simpl.
  pose proof (same_shape_bump h p n w Hn) as Hs1.
  destruct (parent n) as [q0|] eqn:Hpar.
  - pose proof (Hpo p n q0 Hn Hpar) as Hlt.
    destruct (IH (<[p := bump n w]> h) q0) as (h' & Hrun & Hs2 & Hlook).
    + by eapply parents_older_same_shape.
    + lia.
    + rewrite length_insert. apply lookup_lt_Some in Hn. lia.
    + exists h'. split; [done|]. split; [by eapply same_shape_trans|].
      intros q nq Hq. rewrite (ancestors_same_shape _ _ _ _ Hs1) in Hlook.
      destruct (decide (q = p)) as [-> | Hne].
      * assert (nq = n) as -> by congruence.
        rewrite (Hlook p (bump n w)).
        2:{ apply list_lookup_insert_eq. by eapply lookup_lt_Some. }
        rewrite bool_decide_eq_false_2.
        2:{ intros Hin. apply ancestors_le in Hin; [lia | done]. }
        rewrite bool_decide_eq_true_2 by left. done.
      * rewrite (Hlook q nq) by (by rewrite list_lookup_insert_ne).
        f_equal.
        assert (bool_decide (q ∈ p :: ancestors fuel h (Some q0))
                = bool_decide (q ∈ ancestors fuel h (Some q0))) as ->; [|done].
        apply bool_decide_ext. rewrite elem_of_cons.
        split; [by intros [?|?] | by right].
  - exists (<[p := bump n w]> h).
    split; [by destruct fuel|]. split; [done|].
    intros q nq Hq.
    assert (ancestors fuel h None = []) as -> by (by destruct fuel).
    destruct (decide (q = p)) as [-> | Hne].
    + assert (nq = n) as -> by congruence.
      rewrite bool_decide_eq_true_2 by left.
      apply list_lookup_insert_eq. by eapply lookup_lt_Some.
    + rewrite list_lookup_insert_ne by done. rewrite Hq.
      rewrite bool_decide_eq_false_2; [done|].
      intros [? | Hin%elem_of_nil]%elem_of_cons; done.
Qed.

(** The walk ends on a node without [parent]: the root. *)
Lemma ancestors_reach_root :
  ∀ fuel h p,
    parents_older h → (p < fuel)%nat → (p < length h)%nat →
    ∃ r nr, last (ancestors fuel h (Some p)) = Some r
      ∧ h !! r = Some nr ∧ parent nr = None
      ∧ head (ancestors fuel h (Some p)) = Some p.
Proof.
  induction fuel as [|fuel IH]; intros h p Hpo Hf Hlen; [lia|].
  simpl. apply lookup_lt_is_Some in Hlen as [n Hn]. rewrite Hn.
  destruct (parent n) as [q0|] eqn:Hpar.
  - pose proof (Hpo p n q0 Hn Hpar) as Hlt.
    destruct (IH h q0 Hpo) as (r & nr & Hlast & Hr & Hnone & Hhead).
    + lia.
    + apply lookup_lt_Some in Hn. lia.
    + exists r, nr. split; [|done].
      destruct (ancestors fuel h (Some q0)) as [|x xs] eqn:E; [done|].
      by rewrite last_cons, Hlast.
  - exists p, n. assert (ancestors fuel h None = []) as -> by (by destruct fuel).
    done.
Qed.

End Tree.

Section Loop.
Context {BD : Board} {RNG : Rng} {FA : FloatArith}.

Lemma selection_loop_sound h rv cs :
  (∀ c n, c ∈ cs → h !! c = Some n → 0 ≤ visit n) →
  ∀ bn bv r d,
    selection_loop h rv cs bn bv = Some (r, d) →
    Forall (λ x, 0 < x) d
    ∧ match r with
      | Unvisited c => c ∈ cs ∧ ∃ n, h !! c = Some n ∧ visit n = 0
      | Best bn' => bn' = bn ∨ ∃ c, bn' = Some c ∧ c ∈ cs
      end.
Proof.
  induction cs as [|x rest IH]; intros Hpos bn bv r d; simpl.
  - intros [= <- <-]. split; [constructor | by left].
  - destruct (h !! x) as [nx|] eqn:Hx; simpl; [|done].
    destruct (visit nx =? 0) eqn:Ez.
    + intros [= <- <-]. apply Z.eqb_eq in Ez. split; [constructor|].
      split; [left | eauto].
    + apply Z.eqb_neq in Ez.
      assert (0 < visit nx) as Hvx.
      { pose proof (Hpos x nx (list_elem_of_here _ _) Hx). lia. }
      assert (Hpos' : ∀ c n, c ∈ rest → h !! c = Some n → 0 ≤ visit n).
      { intros c n Hc. apply Hpos. by right. }
      intros Hrun. apply bind_Some in Hrun as ([r0 d0] & Hrun & [= <- <-]).
      destruct (fgt _ bv).
      * apply (IH Hpos') in Hrun as [Hd Hr].
        split; [by repeat constructor|].
        destruct r0 as [c|bn'].
        -- destruct Hr as [Hc Hn]. split; [by right | done].
        -- right. destruct Hr as [-> | (c & -> & Hc)].
           ++ exists x. split; [done | left].
           ++ exists c. split; [done | by right].
      * apply (IH Hpos') in Hrun as [Hd Hr].
        split; [by repeat constructor|].
        destruct r0 as [c|bn'].
        -- destruct Hr as [Hc Hn]. split; [by right | done].
        -- destruct Hr as [-> | (c & -> & Hc)]; [by left|].
           right. exists c. split; [done | by right].
Qed.

Lemma selection_loop_total h rv cs :
  (∀ c, c ∈ cs → is_Some (h !! c)) →
  ∀ bn bv, is_Some (selection_loop h rv cs bn bv).
Proof.
  induction cs as [|x rest IH]; intros Hall bn bv; simpl; [done|].
  destruct (Hall x) as [nx ->]; [left|]. simpl.
  destruct (visit nx =? 0); [done|].
  assert (Hall' : ∀ c, c ∈ rest → is_Some (h !! c)).
  { intros c Hc. apply Hall. by right. }
  destruct (fgt _ bv).
  - destruct (IH Hall' (Some x) (uct_value rv (win nx) (visit nx))) as [[r d] ->]. done.
  - destruct (IH Hall' bn bv) as [[r d] ->]. done.
Qed.

Lemma selection_loop_keeps h rv cs :
  ∀ x bv bn' d,
    selection_loop h rv cs (Some x) bv = Some (Best bn', d) → is_Some bn'.
Proof.
  induction cs as [|y rest IH]; intros x bv bn' d; simpl.
  - intros [= <- <-]. done.
  - destruct (h !! y) as [ny|]; simpl; [|done].
    destruct (visit ny =? 0); [done|].
    intros Hrun. apply bind_Some in Hrun as ([r0 d0] & Hrun & [= -> <-]).
    destruct (fgt _ bv); eauto.
Qed.

Lemma depth_one_child h r c :
  depth_one h → h !! root_ptr = Some r → c ∈ child r →
  (0 < c)%nat ∧ ∃ n, h !! c = Some n ∧ parent n = Some root_ptr ∧ child n = [].
Proof.
  intros (r' & Hr' & _ & Hch & Hkids) Hr Hc.
  assert (r' = r) as -> by congruence.
  rewrite Hch in Hc. apply elem_of_seq in Hc.
  assert (c < length h)%nat as Hlt by lia.
  apply lookup_lt_is_Some in Hlt as [n Hn].
  split; [lia|]. exists n. split; [done|]. apply (Hkids c n); [lia | done].
Qed.

(** The node [selection] returns on a tree of depth one. *)
Lemma selection_depth_one fuel h c d :
  depth_one h → (∀ p n, h !! p = Some n → 0 ≤ visit n) →
  selection fuel h (Some root_ptr) = Some (c, d) →
  Forall (λ x, 0 < x) d
  ∧ ∃ r, h !! root_ptr = Some r
      ∧ ((child r = [] ∧ c = root_ptr) ∨ c ∈ child r)
      ∧ (∀ c1 rest n1, child r = c1 :: rest → h !! c1 = Some n1 →
           visit n1 = 0 → c = c1).
Proof.
  intros Hd1 Hpos. destruct fuel as [|fuel]; [by simpl|]. simpl.
  destruct (h !! root_ptr) as [r|] eqn:Hr; [|done]. simpl.
  destruct (child r) as [|c1 rest] eqn:Hch.
  - intros [= <- <-]. split; [constructor|]. exists r. split; [done|].
    split; [left; by split | intros; congruence].
  - intros Hrun. apply bind_Some in Hrun as ([res d0] & Hloop & Hrun).
    pose proof Hloop as Hloop'.
    apply selection_loop_sound in Hloop as [Hd0 Hres].
    2:{ intros c' n' _. apply Hpos. }
    assert (Hfirst : ∀ n1, h !! c1 = Some n1 → visit n1 = 0 →
                     res = Unvisited c1).
    { intros n1 Hn1 Hz. simpl in Hloop'. rewrite Hn1 in Hloop'. simpl in Hloop'.
      rewrite Hz in Hloop'. simpl in Hloop'. congruence. }
    destruct res as [cu | bn'].
    + injection Hrun as <- <-. split; [done|]. exists r. split; [done|].
      rewrite Hch. split; [right; tauto|].
      intros c1' rest' n1 [= <- <-] Hn1 Hz. specialize (Hfirst n1 Hn1 Hz). congruence.
    + apply bind_Some in Hrun as ([q d'] & Hsel & [= <- <-]).
      destruct Hres as [-> | (c' & -> & Hc')].
      { destruct fuel; done. }
      destruct (depth_one_child h r c' Hd1 Hr) as (Hpos' & n' & Hn' & _ & Hleaf).
      { by rewrite Hch. }
      destruct fuel as [|fuel]; [done|]. simpl in Hsel.
      rewrite Hn' in Hsel. simpl in Hsel. rewrite Hleaf in Hsel.
      injection Hsel as <- <-. rewrite app_nil_r. split; [done|].
      exists r. split; [done|]. rewrite Hch. split; [by right|].
      intros c1' rest' n1 [= <- <-] Hn1 Hz. specialize (Hfirst n1 Hn1 Hz). congruence.
Qed.

Lemma selection_depth_one_total fuel h k :
  depth_one h → counted h k → uct_above_floor → (2 ≤ fuel)%nat →
  is_Some (selection fuel h (Some root_ptr)).
Proof.
  intros Hd1 [(r & Hr & Hk) Hcnt] Hfloor Hfuel.
  destruct fuel as [|fuel]; [lia|].
  simpl. rewrite Hr. simpl.
  destruct (child r) as [|c1 rest] eqn:Hch; [done|].
  assert (Hall : ∀ c, c ∈ c1 :: rest → is_Some (h !! c)).
  { intros c Hc. rewrite <- Hch in Hc.
    destruct (depth_one_child h r c Hd1 Hr Hc) as (_ & n & -> & _). done. }
  destruct (selection_loop_total h (visit r) (c1 :: rest) Hall None f_m99999)
    as [[res d0] Hloop].
  rewrite Hloop. simpl.
  destruct res as [cu | bn']; [done|].
  assert (is_Some bn') as [c' ->].
  { simpl in Hloop. destruct (Hall c1) as [n1 Hn1]; [left|].
    rewrite Hn1 in Hloop. simpl in Hloop.
    destruct (visit n1 =? 0) eqn:Ez; [done|]. apply Z.eqb_neq in Ez.
    destruct (Hcnt c1 n1 Hn1) as [Hw Hv].
    rewrite Hfloor in Hloop by lia.
    apply bind_Some in Hloop as ([r0 d1] & Hloop & [= -> <-]).
    by eapply selection_loop_keeps. }
  apply selection_loop_sound in Hloop as [_ [? | (c & [= <-] & Hc)]]; [done| |].
  2:{ intros c n _ Hn. destruct (Hcnt c n Hn). lia. }
  rewrite <- Hch in Hc.
  destruct (depth_one_child h r c' Hd1 Hr Hc) as (_ & n & Hn & _ & Hleaf).
  destruct fuel as [|fuel]; [lia|].
  simpl. rewrite Hn. simpl. rewrite Hleaf. done.
Qed.

(** [backPropagation] from the node [selection] returned. *)
Lemma backPropagation_depth_one fuel h c nc r w h' :
  depth_one h → h !! root_ptr = Some r → h !! c = Some nc →
  backPropagation fuel h (Some c) w = Some h' →
  same_shape h h'
  ∧ ∀ q n, h !! q = Some n →
      h' !! q = Some (if bool_decide (q = c ∨ q = root_ptr) then bump n w else n).
Proof.
  intros Hd1 Hr Hc Hrun.
  pose proof Hd1 as (r' & Hr' & Hpar & _ & Hkids).
  assert (r' = r) as -> by congruence.
  destruct fuel as [|fuel]; [done|]. simpl in Hrun. rewrite Hc in Hrun. simpl in Hrun.
  pose proof (same_shape_bump h c nc w Hc) as Hs1.
  destruct (decide (c = root_ptr)) as [-> | Hne].
  - assert (nc = r) as -> by congruence. rewrite Hpar in Hrun.
    assert (h' = <[root_ptr := bump r w]> h) as -> by (destruct fuel; simpl in Hrun; congruence).
    split; [done|]. intros q n Hq.
    destruct (decide (q = root_ptr)) as [-> | Hq0].
    + rewrite bool_decide_eq_true_2 by tauto. assert (n = r) as -> by congruence.
      apply list_lookup_insert_eq. by eapply lookup_lt_Some.
    + rewrite bool_decide_eq_false_2 by tauto. by rewrite list_lookup_insert_ne.
  - destruct (Hkids c nc) as [Hpc _]; [unfold root_ptr in *; lia | done |].
    rewrite Hpc in Hrun.
    destruct fuel as [|fuel]; [done|]. simpl in Hrun.
    rewrite list_lookup_insert_ne in Hrun by done. rewrite Hr in Hrun. simpl in Hrun.
    rewrite Hpar in Hrun.
    assert (h' = <[root_ptr := bump r w]> (<[c := bump nc w]> h)) as ->
      by (destruct fuel; simpl in Hrun; congruence).
    split.
    + eapply same_shape_trans; [done|]. apply same_shape_bump.
      by rewrite list_lookup_insert_ne.
    + intros q n Hq.
      destruct (decide (q = root_ptr)) as [-> | Hq0].
      * rewrite bool_decide_eq_true_2 by tauto. assert (n = r) as -> by congruence.
        apply list_lookup_insert_eq. rewrite length_insert. by eapply lookup_lt_Some.
      * rewrite list_lookup_insert_ne by done.
        destruct (decide (q = c)) as [-> | Hqc].
        -- rewrite bool_decide_eq_true_2 by tauto. assert (n = nc) as -> by congruence.
           apply list_lookup_insert_eq. by eapply lookup_lt_Some.
        -- rewrite bool_decide_eq_false_2 by tauto. by rewrite list_lookup_insert_ne.
Qed.

Lemma backPropagation_depth_one_total fuel h c w :
  depth_one h → (c < length h)%nat → (2 ≤ fuel)%nat →
  is_Some (backPropagation fuel h (Some c) w).
Proof.
  intros Hd1 Hc Hfuel.
  assert (Hpo : parents_older h).
  { destruct Hd1 as (r & Hr & Hpar & _ & Hkids). intros p n q Hn Hq.
    destruct p as [|p]; [unfold root_ptr in *; congruence|].
    destruct (Hkids (S p) n) as [Hp _]; [lia | done |].
    unfold root_ptr in *. assert (q = 0%nat) by congruence. lia. }
  destruct fuel as [|[|fuel]]; [lia..|].
  destruct Hd1 as (r & Hr & Hpar & _ & Hkids).
  apply lookup_lt_is_Some in Hc as [nc Hc].
  simpl. rewrite Hc. simpl.
  destruct (decide (c = root_ptr)) as [-> | Hne].
  - assert (nc = r) as -> by congruence. rewrite Hpar. simpl. eexists. reflexivity.
  - destruct (Hkids c nc) as [-> _]; [unfold root_ptr in *; lia | done |].
    simpl. rewrite list_lookup_insert_ne by done. rewrite Hr. simpl. rewrite Hpar. destruct fuel; by eexists.
Qed.

Lemma bump_exact n w k :
  0 ≤ win n ≤ visit n → visit n ≤ k → k < INT_MAX → w = 0 ∨ w = 1 →
  bump n w = set_counts n (visit n + 1) (win n + w).
Proof.
  unfold INT_MAX. intros Hw Hv Hk Hw01. unfold bump.
  rewrite !int_wrap_small by lia. done.
Qed.

End Loop.

Section Passes.
Context {BD : Board} {RNG : Rng} {FA : FloatArith}.

Lemma bounded_same_shape μ fuel h h' :
  same_shape h h' → bounded μ fuel h → bounded μ fuel h'.
Proof.
  intros Hs Hb p n' Hn'.
  destruct (same_shape_lookup_inv _ _ _ _ Hs Hn') as (n & Hn & -> & _).
  by eapply Hb.
Qed.

Lemma oneSim_total (μ : board → nat) fuel this node :
  shuffle_permutes → decreasing μ →
  who (base this) = black ∨ who (base this) = white →
  (μ (b node) < fuel)%nat →
  is_Some (oneSim fuel this node).
Proof.
  intros Hs Hd Hw Hf. unfold oneSim, oneSim_run.
  destruct (rollout_players_spec _ Hw) as (me & op & -> & Hme & Hwme & Hop & Hwop & _).
  simpl.
  destruct (oneSim_loop_spec μ _ Hs Hd fuel me op false (b node) Hme Hwme Hop Hwop Hf)
    as (played & final & -> & _). simpl. by eexists.
Qed.

Lemma iteration_step fuel this h k h' d :
  depth_one h → counted h k → k < INT_MAX →
  iteration fuel this root_ptr h = Some (h', d) →
  ∃ c w, (w = 0 ∨ w = 1)
    ∧ selection fuel h (Some root_ptr) = Some (c, d)
    ∧ Forall (λ x, 0 < x) d
    ∧ same_shape h h'
    ∧ (∀ q n, h !! q = Some n →
         h' !! q = Some (if bool_decide (q = c ∨ q = root_ptr)
                         then set_counts n (visit n + 1) (win n + w) else n))
    ∧ ∃ r, h !! root_ptr = Some r
        ∧ ((child r = [] ∧ c = root_ptr) ∨ c ∈ child r)
        ∧ (∀ c1 rest n1, child r = c1 :: rest → h !! c1 = Some n1 →
             visit n1 = 0 → c = c1).
Proof.
  intros Hd1 [(r & Hr & Hk) Hcnt] Hmax Hrun. unfold iteration in Hrun.
  apply bind_Some in Hrun as ([c d0] & Hsel & Hrun).
  apply bind_Some in Hrun as (nc & Hc & Hrun).
  apply bind_Some in Hrun as (rb & Hsim & Hrun).
  apply bind_Some in Hrun as (h2 & Hbp & [= <- <-]).
  set (w := if rb then 1 else 0) in *.
  assert (Hw : w = 0 ∨ w = 1) by (unfold w; destruct rb; auto).
  destruct (selection_depth_one fuel h c d0 Hd1) as (Hd0 & r' & Hr' & Hwhere & Hfirst); auto.
  { intros p n Hn. destruct (Hcnt p n Hn). lia. }
  assert (r' = r) as -> by congruence.
  destruct (backPropagation_depth_one fuel h c nc r w h2 Hd1 Hr Hc Hbp) as [Hshape Hlook].
  exists c, w. repeat split; auto.
  - apply Hshape.
  - apply Hshape.
  - intros q n Hq. rewrite (Hlook q n Hq).
    destruct (Hcnt q n Hq) as [Hwin Hvis].
    by rewrite (bump_exact n w k).
  - eauto.
Qed.

Lemma iteration_counted fuel this h k h' d :
  depth_one h → counted h k → k < INT_MAX →
  iteration fuel this root_ptr h = Some (h', d) →
  counted h' (k + 1) ∧ grown h h' ∧ first_seen h'.
Proof.
  intros Hd1 Hcnt Hmax Hrun.
  destruct (iteration_step fuel this h k h' d Hd1 Hcnt Hmax Hrun)
    as (c & w & Hw & Hsel & Hd & Hshape & Hlook & r & Hr & Hwhere & Hfirst).
  destruct Hcnt as [(r0 & Hr0 & Hk) Hcnt].
  assert (r0 = r) as -> by congruence.
  assert (Hgrow : grown h h').
  { intros q n n' Hq Hq'. rewrite (Hlook q n Hq) in Hq'. injection Hq' as <-.
    case_bool_decide; simpl; lia. }
  split; [|split; [done|]].
  - split.
    + eexists. split; [by apply Hlook|].
      rewrite bool_decide_eq_true_2 by tauto. simpl. lia.
    + intros q n' Hq'.
      destruct (same_shape_lookup_inv _ _ _ _ Hshape Hq') as (n & Hq & _).
      rewrite (Hlook q n Hq) in Hq'. injection Hq' as <-.
      destruct (Hcnt q n Hq). case_bool_decide; simpl; lia.
  - intros r' c1 rest n1' Hr' Hch Hn1'.
    destruct (same_shape_lookup_inv _ _ _ _ Hshape Hr') as (r2 & Hr2 & _ & _ & _ & Hch2).
    assert (r2 = r) as -> by congruence.
    destruct (same_shape_lookup_inv _ _ _ _ Hshape Hn1') as (n1 & Hn1 & _).
    rewrite (Hlook c1 n1 Hn1) in Hn1'. injection Hn1' as <-.
    destruct (Hcnt c1 n1 Hn1) as [Hwin Hvis].
    destruct (decide (visit n1 = 0)) as [Hz | Hnz].
    + rewrite (Hfirst c1 rest n1) by congruence.
      rewrite bool_decide_eq_true_2 by tauto. simpl. lia.
    + case_bool_decide; simpl; lia.
Qed.

Lemma first_seen_grown h h' : same_shape h h' → grown h h' → first_seen h → first_seen h'.
Proof.
  intros Hshape Hgrow Hfs r' c1 rest n1' Hr' Hch Hn1'.
  destruct (same_shape_lookup_inv _ _ _ _ Hshape Hr') as (r & Hr & _ & _ & _ & Hch2).
  destruct (same_shape_lookup_inv _ _ _ _ Hshape Hn1') as (n1 & Hn1 & _).
  pose proof (Hgrow c1 n1 n1' Hn1 Hn1').
  assert (1 ≤ visit n1) by (apply (Hfs r c1 rest n1 Hr); [congruence | done]). lia.
Qed.

Lemma grown_trans h1 h2 h3 :
  same_shape h1 h2 → grown h1 h2 → grown h2 h3 → grown h1 h3.
Proof.
  intros [_ Hs] H12 H23 p n n3 Hn Hn3.
  destruct (Hs p n Hn) as (n2 & Hn2 & _).
  pose proof (H12 p n n2 Hn Hn2). pose proof (H23 p n2 n3 Hn2 Hn3). lia.
Qed.

(** What [n] passes of the loop keep and change. *)
Lemma sim_loop_inv fuel this :
  ∀ n h k h' d,
    depth_one h → counted h k → k + Z.of_nat n ≤ INT_MAX →
    sim_loop fuel this root_ptr n h = Some (h', d) →
    same_shape h h' ∧ grown h h' ∧ counted h' (k + Z.of_nat n)
    ∧ Forall (λ x, 0 < x) d
    ∧ ((0 < n)%nat → first_seen h').
Proof.
  induction n as [|n IH]; intros h k h' d Hd1 Hcnt Hmax; simpl.
  - intros [= <- <-]. rewrite Z.add_0_r.
    split; [apply same_shape_refl|]. split; [|split; [done|split; [constructor|lia]]].
    intros p x x' Hx Hx'. assert (x = x') by congruence. subst. lia.
  - intros Hrun. apply bind_Some in Hrun as ([h1 d1] & Hit & Hrun).
    apply bind_Some in Hrun as ([h2 d2] & Hrest & [= <- <-]).
    destruct (iteration_step fuel this h k h1 d1 Hd1 Hcnt ltac:(lia) Hit)
      as (c & w & _ & _ & Hd1pos & Hshape1 & _).
    destruct (iteration_counted fuel this h k h1 d1 Hd1 Hcnt ltac:(lia) Hit)
      as (Hcnt1 & Hgrow1 & Hfs1).
    destruct (IH h1 (k + 1) h2 d2) as (Hshape2 & Hgrow2 & Hcnt2 & Hd2pos & Hfs2); auto.
    { by eapply depth_one_same_shape. }
    { lia. }
    split; [by eapply same_shape_trans|]. split; [by eapply grown_trans|].
    split; [by replace (k + Z.of_nat (S n)) with (k + 1 + Z.of_nat n) by lia|].
    split; [by apply Forall_app|].
    intros _. by eapply first_seen_grown.
Qed.

Lemma iteration_total (μ : board → nat) fuel this h k :
  shuffle_permutes → decreasing μ → uct_above_floor →
  who (base this) = black ∨ who (base this) = white →
  (2 ≤ fuel)%nat → bounded μ fuel h →
  depth_one h → counted h k →
  is_Some (iteration fuel this root_ptr h).
Proof.
  intros Hs Hd Hfloor Hw Hfuel Hb Hd1 Hcnt. unfold iteration.
  destruct (selection_depth_one_total fuel h k Hd1 Hcnt Hfloor Hfuel) as [[c d] Hsel].
  rewrite Hsel. simpl.
  destruct (selection_depth_one fuel h c d Hd1) as (_ & r & Hr & Hwhere & _); auto.
  { intros p n Hn. destruct Hcnt as [_ Hcnt]. destruct (Hcnt p n Hn). lia. }
  assert (∃ nc, h !! c = Some nc) as [nc Hc].
  { destruct Hwhere as [[_ ->] | Hin]; [eauto|].
    destruct (depth_one_child h r c Hd1 Hr Hin) as (_ & nc & Hc & _). eauto. }
  rewrite Hc. simpl.
  destruct (oneSim_total μ fuel this nc Hs Hd Hw (Hb c nc Hc)) as [rb ->]. simpl.
  destruct (backPropagation_depth_one_total fuel h c (if rb then 1 else 0) Hd1)
    as [h' ->]; [by eapply lookup_lt_Some | done |].
  simpl. by eexists.
Qed.

Lemma sim_loop_total (μ : board → nat) fuel this :
  shuffle_permutes → decreasing μ → uct_above_floor →
  who (base this) = black ∨ who (base this) = white →
  (2 ≤ fuel)%nat →
  ∀ n h k,
    bounded μ fuel h → depth_one h → counted h k →
    k + Z.of_nat n ≤ INT_MAX →
    is_Some (sim_loop fuel this root_ptr n h).
Proof.
  intros Hs Hd Hfloor Hw Hfuel.
  induction n as [|n IH]; intros h k Hb Hd1 Hcnt Hmax; simpl; [by eexists|].
  destruct (iteration_total μ fuel this h k Hs Hd Hfloor Hw Hfuel Hb Hd1 Hcnt)
    as [[h1 d1] Hit].
  rewrite Hit. simpl.
  destruct (iteration_step fuel this h k h1 d1 Hd1 Hcnt ltac:(lia) Hit)
    as (c & w & _ & _ & _ & Hshape1 & _).
  destruct (iteration_counted fuel this h k h1 d1 Hd1 Hcnt ltac:(lia) Hit)
    as (Hcnt1 & _).
  destruct (IH h1 (k + 1)) as [[h2 d2] ->];
    [by eapply bounded_same_shape | by eapply depth_one_same_shape | done | lia |].
  simpl. by eexists.
Qed.

Lemma iteration_rollout fuel this h k h' d :
  depth_one h → counted h k → k < INT_MAX →
  iteration fuel this root_ptr h = Some (h', d) →
  ∃ c nc rb,
    h !! c = Some nc ∧ oneSim fuel this nc = Some rb
    ∧ ∀ q n, h !! q = Some n →
        h' !! q = Some (if bool_decide (q = c ∨ q = root_ptr)
                        then set_counts n (visit n + 1)
                               (win n + (if rb : bool then 1 else 0))
                        else n).
Proof.
  intros Hd1 [(r & Hr & Hk) Hcnt] Hmax Hrun. unfold iteration in Hrun.
  apply bind_Some in Hrun as ([c d0] & Hsel & Hrun).
  apply bind_Some in Hrun as (nc & Hc & Hrun).
  apply bind_Some in Hrun as (rb & Hsim & Hrun).
  apply bind_Some in Hrun as (h2 & Hbp & [= <- <-]).
  destruct (backPropagation_depth_one fuel h c nc r _ h2 Hd1 Hr Hc Hbp) as [_ Hlook].
  exists c, nc, rb. split; [done|]. split; [done|].
  intros q n Hq. rewrite (Hlook q n Hq).
  destruct (Hcnt q n Hq) as [Hwin Hvis].
  rewrite (bump_exact n _ k); [done..|]. destruct rb; auto.
Qed.

Lemma sim_loop_repeated fuel this :
  ∀ n h k h' d,
    depth_one h → counted h k → k + Z.of_nat n ≤ INT_MAX →
    (∀ p x, (0 < p)%nat → h !! p = Some x → repeated fuel this x) →
    sim_loop fuel this root_ptr n h = Some (h', d) →
    ∀ p x, (0 < p)%nat → h' !! p = Some x → repeated fuel this x.
Proof.
  induction n as [|n IH]; intros h k h' d Hd1 Hcnt Hmax Hrep; simpl.
  - by intros [= <- <-].
  - intros Hrun. apply bind_Some in Hrun as ([h1 d1] & Hit & Hrun).
    apply bind_Some in Hrun as ([h2 d2] & Hrest & [= <- <-]).
    destruct (iteration_step fuel this h k h1 d1 Hd1 Hcnt ltac:(lia) Hit)
      as (_ & _ & _ & _ & _ & Hshape1 & _).
    destruct (iteration_counted fuel this h k h1 d1 Hd1 Hcnt ltac:(lia) Hit)
      as (Hcnt1 & _).
    destruct (iteration_rollout fuel this h k h1 d1 Hd1 Hcnt ltac:(lia) Hit)
      as (c & nc & rb & Hc & Hsim & Hlook).
    apply (IH h1 (k + 1) h2 d2); [by eapply depth_one_same_shape | done | lia | | done].
    intros p x' Hp Hx'.
    destruct (same_shape_lookup_inv _ _ _ _ Hshape1 Hx') as (x & Hx & _).
    rewrite (Hlook p x Hx) in Hx'. injection Hx' as <-.
    specialize (Hrep p x Hp Hx).
    case_bool_decide as Hsel; [|done].
    destruct Hsel as [-> | ->]; [|unfold root_ptr in Hp; lia].
    assert (x = nc) as -> by congruence.
    right. exists rb. split; [exact Hsim|]. simpl.
    destruct Hrep as [[-> ->] | (r & Hr & ->)].
    + destruct rb; lia.
    + assert (r = rb) as -> by congruence. destruct rb; lia.
Qed.

End Passes.

Lemma frac_lt_trans a b c d e f :
  0 < b → 0 < d → 0 < f → a * d < c * b → c * f < e * d → a * f < e * b.
Proof.
  intros Hb Hd Hf H1 H2.
  apply (Z.mul_lt_mono_pos_r d); [done|].
  assert (a * d * f < c * b * f) by (by apply Z.mul_lt_mono_pos_r).
  assert (c * f * b < e * d * b) by (by apply Z.mul_lt_mono_pos_r).
  lia.
Qed.

Lemma frac_le_lt_trans a b c d e f :
  0 < b → 0 < d → 0 < f → a * d ≤ c * b → c * f < e * d → a * f < e * b.
Proof.
  intros Hb Hd Hf H1 H2.
  apply (Z.mul_lt_mono_pos_r d); [done|].
  assert (a * d * f ≤ c * b * f) by (apply Z.mul_le_mono_nonneg_r; lia).
  assert (c * f * b < e * d * b) by (by apply Z.mul_lt_mono_pos_r).
  lia.
Qed.

Section Decision.
Context {BD : Board} {RNG : Rng} {FA : FloatArith}.

Lemma decision_loop_divisors h cs :
  (∀ c n, c ∈ cs → h !! c = Some n → 0 ≤ visit n) →
  ∀ bwr bm m d,
    decision_loop h cs bwr bm = Some (m, d) → Forall (λ x, 0 < x) d.
Proof.
  induction cs as [|x rest IH]; intros Hpos bwr bm m d; simpl.
  - intros [= <- <-]. constructor.
  - destruct (h !! x) as [nx|] eqn:Hx; simpl; [|done].
    assert (Hpos' : ∀ c n, c ∈ rest → h !! c = Some n → 0 ≤ visit n).
    { intros c n Hc. apply Hpos. by right. }
    destruct (visit nx =? 0) eqn:Ez; [by apply IH|].
    apply Z.eqb_neq in Ez.
    pose proof (Hpos x nx (list_elem_of_here _ _) Hx).
    intros Hrun. apply bind_Some in Hrun as ([m0 d0] & Hrun & [= <- <-]).
    constructor; [lia|].
    destruct (fgt _ bwr); by eapply IH.
Qed.

(** The child the final loop settles on, by exact comparison of the
    quotients [win / visit]. *)
Lemma decision_loop_spec bound h cs :
  ratio_exact bound →
  (∀ c, c ∈ cs → ∃ n, h !! c = Some n ∧ 0 ≤ win n ≤ visit n ∧ visit n ≤ bound) →
  ∀ wb vb mb, 0 ≤ wb ≤ vb → 0 < vb ≤ bound →
  ∃ m d, decision_loop h cs (win_rate wb vb) mb = Some (m, d)
    ∧ ((m = mb ∧ ∀ c n, c ∈ cs → h !! c = Some n → 0 < visit n →
                   win n * vb ≤ wb * visit n)
       ∨ (∃ i c n, cs !! i = Some c ∧ h !! c = Some n ∧ 0 < visit n
            ∧ m = move n ∧ wb * visit n < win n * vb
            ∧ ∀ j c' n', cs !! j = Some c' → h !! c' = Some n' → 0 < visit n' →
                win n' * visit n ≤ win n * visit n'
                ∧ ((j < i)%nat → win n' * visit n < win n * visit n'))).
Proof.
  intros Hexact. induction cs as [|x rest IH]; intros Hall wb vb mb Hwb Hvb.
  - simpl. exists mb, []. split; [done|]. left. split; [done|].
    intros c n Hc. by apply elem_of_nil in Hc.
  - destruct (Hall x) as (nx & Hx & Hwx & Hvx); [left|].
    assert (Hall' : ∀ c, c ∈ rest →
              ∃ n, h !! c = Some n ∧ 0 ≤ win n ≤ visit n ∧ visit n ≤ bound).
    { intros c Hc. apply Hall. by right. }
    simpl. rewrite Hx. simpl.
    destruct (visit nx =? 0) eqn:Ez.
    + apply Z.eqb_eq in Ez.
      destruct (IH Hall' wb vb mb Hwb Hvb) as (m & d & -> & Hres).
      exists m, d. split; [done|].
      destruct Hres as [[-> Hno] | (i & c & n & Hi & Hn & Hv & -> & Hgt & Hmax)].
      * left. split; [done|]. intros c n [-> | Hc]%elem_of_cons Hn Hv.
        -- assert (n = nx) as -> by congruence. lia.
        -- eauto.
      * right. exists (S i), c, n. repeat split; auto.
        -- destruct j as [|j]; simpl in *.
           ++ assert (c' = x) as -> by congruence.
              assert (n' = nx) as -> by congruence. lia.
           ++ by eapply Hmax.
        -- destruct j as [|j]; simpl in *.
           ++ assert (c' = x) as -> by congruence.
              assert (n' = nx) as -> by congruence. lia.
           ++ intros Hj. eapply Hmax; eauto. lia.
    + apply Z.eqb_neq in Ez. assert (0 < visit nx) as Hpx by lia.
      rewrite (Hexact (win nx) (visit nx) wb vb) by lia.
      destruct (wb * visit nx <? win nx * vb) eqn:Elt.
      * apply Z.ltb_lt in Elt.
        destruct (IH Hall' (win nx) (visit nx) (move nx)) as (m & d & -> & Hres); [lia..|].
        simpl. eexists m, _. split; [done|]. right.
        destruct Hres as [[-> Hno] | (i & c & n & Hi & Hn & Hv & -> & Hgt & Hmax)].
        -- exists 0%nat, x, nx. repeat split; auto.
           ++ destruct j as [|j]; simpl in *.
              ** assert (c' = x) as -> by congruence.
                 assert (n' = nx) as -> by congruence. lia.
              ** eapply Hno; eauto. by eapply list_elem_of_lookup_2.
           ++ lia.
        -- exists (S i), c, n. repeat split; auto.
           ++ apply (frac_lt_trans wb vb (win nx) (visit nx) (win n) (visit n)); lia.
           ++ destruct j as [|j]; simpl in *.
              ** assert (c' = x) as -> by congruence.
                 assert (n' = nx) as -> by congruence. lia.
              ** by eapply Hmax.
           ++ destruct j as [|j]; simpl in *.
              ** assert (c' = x) as -> by congruence.
                 assert (n' = nx) as -> by congruence. lia.
              ** intros Hj. eapply Hmax; eauto. lia.
      * apply Z.ltb_ge in Elt.
        destruct (IH Hall' wb vb mb Hwb Hvb) as (m & d & -> & Hres).
        simpl. eexists m, _. split; [done|].
        destruct Hres as [[-> Hno] | (i & c & n & Hi & Hn & Hv & -> & Hgt & Hmax)].
        -- left. split; [done|]. intros c n [-> | Hc]%elem_of_cons Hn Hv.
           ++ assert (n = nx) as -> by congruence. lia.
           ++ eauto.
        -- right. exists (S i), c, n.
           assert (win nx * visit n < win n * visit nx) as Hstrict.
           { apply (frac_le_lt_trans (win nx) (visit nx) wb vb (win n) (visit n)); lia. }
           repeat split; auto.
           ++ destruct j as [|j]; simpl in *.
              ** assert (c' = x) as -> by congruence.
                 assert (n' = nx) as -> by congruence. lia.
              ** by eapply Hmax.
           ++ destruct j as [|j]; simpl in *.
              ** assert (c' = x) as -> by congruence.
                 assert (n' = nx) as -> by congruence. lia.
              ** intros Hj. eapply Hmax; eauto. lia.
Qed.

Lemma decision_divisors h m d :
  depth_one h → first_seen h → (∀ p n, h !! p = Some n → 0 ≤ visit n) →
  decision h = Some (m, d) → Forall (λ x, 0 < x) d.
Proof.
  intros Hd1 Hfs Hpos Hrun. unfold decision in Hrun.
  apply bind_Some in Hrun as (r & Hr & Hrun).
  apply bind_Some in Hrun as (c0 & Hc0 & Hrun).
  apply bind_Some in Hrun as (n0 & Hn0 & Hrun).
  apply bind_Some in Hrun as ([m0 d0] & Hloop & [= <- <-]).
  destruct (child r) as [|c1 rest] eqn:Hch; [done|].
  simpl in Hc0. injection Hc0 as <-.
  pose proof (Hfs r c1 rest n0 Hr Hch Hn0).
  constructor; [lia|].
  eapply decision_loop_divisors; [|done]. intros c n _. apply Hpos.
Qed.

Local Arguments decision_loop : simpl never.

Lemma decision_spec bound h k r :
  ratio_exact bound → depth_one h → counted h k → k ≤ bound → first_seen h →
  h !! root_ptr = Some r → child r ≠ [] →
  ∃ m d c n, decision h = Some (m, d) ∧ best_rate h r c
    ∧ h !! c = Some n ∧ m = move n.
Proof.
  intros Hexact Hd1 [_ Hcnt] Hk Hfs Hr Hne. unfold decision. rewrite Hr. simpl.
  destruct (child r) as [|c1 rest] eqn:Hch; [done|]. simpl.
  destruct (depth_one_child h r c1 Hd1 Hr) as (_ & n0 & Hn0 & _); [rewrite Hch; left|].
  rewrite Hn0. simpl.
  pose proof (Hfs r c1 rest n0 Hr Hch Hn0) as Hseen.
  destruct (Hcnt c1 n0 Hn0) as [Hw0 Hv0].
  destruct (decision_loop_spec bound h (c1 :: rest) Hexact) with
    (wb := win n0) (vb := visit n0) (mb := move n0) as (m & d & -> & Hres); [|lia..|].
  { intros c Hc. rewrite <- Hch in Hc.
    destruct (depth_one_child h r c Hd1 Hr Hc) as (_ & n & Hn & _).
    destruct (Hcnt c n Hn). exists n. split; [done|]. lia. }
  simpl. eexists m, _.
  destruct Hres as [[-> Hno] | (i & c & n & Hi & Hn & Hv & -> & Hgt & Hmax)].
  - exists c1, n0. split; [done|]. split; [|done].
    unfold best_rate. rewrite Hch.
    exists 0%nat, n0. split; [done|]. split; [done|]. split; [lia|].
    intros j c' n' Hj Hn' Hv'. split; [|intros; lia].
    eapply Hno; eauto. by eapply list_elem_of_lookup_2.
  - exists c, n. split; [done|]. split; [|done].
    unfold best_rate. rewrite Hch.
    exists i, n. repeat split; auto; by eapply Hmax.
Qed.

End Decision.

Section Calls.
Context {BD : Board} {RNG : Rng} {FA : FloatArith}.

Lemma expansion_first_tree this state :
  expansion this root_ptr (root_only state)
  = Some (shuffled this, first_tree this state).
Proof. apply expansion_root_only. Qed.

Lemma Simulation_cases fuel this state :
  Simulation fuel this state =
  match legal_children root_ptr (space (base (shuffled this))) state with
  | [] => Some (mkOutcome None (shuffled this) (first_tree this state) [])
  | _ :: _ =>
      '(h2, d) ← sim_loop fuel (shuffled this) root_ptr
                   (Z.to_nat (sim_counts this)) (first_tree this state);
      '(m, d') ← decision h2;
      Some (mkOutcome m (shuffled this) h2 (d ++ d'))
  end.
Proof.
  unfold Simulation. fold (root_only state). rewrite expansion_first_tree.
  simpl. by destruct (legal_children _ _ state).
Qed.

Lemma shuffled_space_ok this :
  shuffle_permutes → space_ok (base this) → space_ok (base (shuffled this)).
Proof.
  intros Hs [Hw Hperm]. split; [done|]. simpl. by rewrite (Hs _ _).
Qed.

Lemma expanded_counted state sp : counted (expanded state sp) 0.
Proof.
  split; [by eexists|]. intros p n Hn.
  apply expanded_fresh in Hn as [-> ->]. lia.
Qed.

Lemma expanded_bounded (μ : board → nat) fuel state sp :
  decreasing μ → (μ state < fuel)%nat → bounded μ fuel (expanded state sp).
Proof.
  intros Hd Hf [|p] n; simpl.
  - by intros [= <-].
  - intros Hn. apply list_elem_of_lookup_2 in Hn.
    apply legal_children_spec in Hn as (_ & _ & _ & _ & m & _ & _ & Hm).
    apply Hd in Hm. simpl in *. lia.
Qed.

Lemma backPropagation_same_shape w :
  ∀ fuel h cur h', backPropagation fuel h cur w = Some h' → same_shape h h'.
Proof.
  induction fuel as [|fuel IH]; intros h [p|] h'; simpl; try done.
  - intros [= <-]. apply same_shape_refl.
  - intros Hrun. apply bind_Some in Hrun as (n & Hn & Hrun).
    eapply same_shape_trans; [by apply same_shape_bump | by eapply IH].
  - intros [= <-]. apply same_shape_refl.
Qed.

Lemma sim_loop_same_shape fuel this root :
  ∀ n h h' d, sim_loop fuel this root n h = Some (h', d) → same_shape h h'.
Proof.
  induction n as [|n IH]; intros h h' d; simpl.
  - intros [= <- <-]. apply same_shape_refl.
  - intros Hrun. apply bind_Some in Hrun as ([h1 d1] & Hit & Hrun).
    apply bind_Some in Hrun as ([h2 d2] & Hrest & [= <- <-]).
    eapply same_shape_trans; [|by eapply IH].
    unfold iteration in Hit.
    apply bind_Some in Hit as ([c d0] & _ & Hit).
    apply bind_Some in Hit as (nc & _ & Hit).
    apply bind_Some in Hit as (rb & _ & Hit).
    apply bind_Some in Hit as (h3 & Hbp & [= <- <-]).
    by eapply backPropagation_same_shape.
Qed.

(** The tree at the end of a call, and the divisors it met. *)
Lemma Simulation_end fuel this state out :
  sim_counts this ≤ INT_MAX →
  Simulation fuel this state = Some out →
  same_shape (first_tree this state) (tree out)
  ∧ depth_one (tree out)
  ∧ (∀ p n, tree out !! p = Some n → 0 ≤ win n ≤ visit n)
  ∧ (1 ≤ sim_counts this → Forall (λ x, 0 < x) (divisors out)).
Proof.
  intros Hmax. rewrite Simulation_cases.
  pose proof (expanded_depth_one state (space (base (shuffled this)))) as Hd1.
  pose proof (expanded_counted state (space (base (shuffled this)))) as Hc0.
  fold (first_tree this state) in Hd1, Hc0.
  destruct (legal_children _ _ state) as [|x xs].
  - intros [= <-]. simpl. split; [apply same_shape_refl|]. split; [done|].
    split; [|constructor].
    intros p n Hn. destruct Hc0 as [_ Hc0]. destruct (Hc0 p n Hn). lia.
  - intros Hrun. apply bind_Some in Hrun as ([h2 d] & Hloop & Hrun).
    apply bind_Some in Hrun as ([m d'] & Hdec & [= <-]). simpl.
    destruct (sim_loop_inv fuel (shuffled this) (Z.to_nat (sim_counts this))
                (first_tree this state) 0 h2 d Hd1 Hc0) as
      (Hshape & _ & [_ Hcnt] & Hd & Hfs); [unfold INT_MAX in *; lia | done |].
    assert (Hd2 : depth_one h2) by (by eapply depth_one_same_shape).
    split; [done|]. split; [done|]. split.
    + intros p n Hn. destruct (Hcnt p n Hn). lia.
    + intros Hone. apply Forall_app. split; [done|].
      eapply decision_divisors; [done | apply Hfs; lia | | done].
      intros p n Hn. destruct (Hcnt p n Hn). lia.
Qed.

End Calls.

Section RolloutAndSelection.
Context {BD : Board} {RNG : Rng} {FA : FloatArith}.

Lemma side_mover w i : side w false i = mover w i.
Proof.
  unfold side, mover. rewrite <- Nat.negb_odd. simpl. by destruct (Nat.odd i).
Qed.

Lemma opponent_of_neq w : w = black ∨ w = white → opponent_of w ≠ w.
Proof. by intros [-> | ->]. Qed.

(** Claim C4.  A rollout, started on the board of the selected node, plays
    the two colours in strict alternation, the opponent of the searching
    player first: ply [i] is a placement of colour [mover who i].  Every
    action it applies is legal on the board it meets, and it stops at the
    first ply whose side has no legal placement left.  [oneSim] reports a
    win exactly when that side is the opponent. *)
Theorem oneSim_alternates (μ : board → nat) fuel this node :
  shuffle_permutes → decreasing μ →
  who (base this) = black ∨ who (base this) = white →
  (μ (b node) < fuel)%nat →
  ∃ played final,
    oneSim_run fuel this node = Some (Nat.even (length played), played)
    ∧ oneSim fuel this node
      = Some (bool_decide (mover (who (base this)) (length played)
                           = opponent_of (who (base this))))
    ∧ (∀ i a, played !! i = Some a →
         ∃ pos, a = Some (mkPlace pos (mover (who (base this)) i)))
    ∧ play played (b node) = Some final
    ∧ no_legal_move (mover (who (base this)) (length played)) final.
Proof.
  intros Hs Hd Hw Hf.
  destruct (rollout_players_spec _ Hw) as (me & op & Hpl & Hme & Hwme & Hop & Hwop & _).
  destruct (oneSim_loop_spec μ _ Hs Hd fuel me op false (b node) Hme Hwme Hop Hwop Hf)
    as (played & final & Hrun & Hplay & Hcol & Hend).
  exists played, final.
  assert (Hrun' : oneSim_run fuel this node = Some (Nat.even (length played), played)).
  { unfold oneSim_run. rewrite Hpl. simpl. rewrite Hrun. simpl.
    by rewrite Nat.negb_odd. }
  split; [done|]. split.
  - unfold oneSim. rewrite Hrun'. simpl. f_equal. unfold mover.
    destruct (Nat.even (length played)).
    + by rewrite bool_decide_eq_true_2.
    + rewrite bool_decide_eq_false_2; [done|].
      intros Heq. by apply (opponent_of_neq _ Hw).
  - split; [|split; [done|]].
    + intros i a Hi. rewrite <- side_mover. eauto.
    + by rewrite <- side_mover.
Qed.

(** Claim C10.  [oneSim] reads nothing of the searching player but its
    colour: two players of the same colour, whatever their engines, spaces
    and configured seeds, get the same rollout on the same board.  The two
    rollout players it builds have no [seed] entry in their configuration
    and carry the default-constructed engine.  So the rollouts of a run that
    start from the same child all end alike: after any number of passes a
    child of the root has lost all its rollouts or won them all. *)
Theorem oneSim_ignores_seed fuel this this' node node' :
  who (base this) = who (base this') → b node = b node' →
  oneSim_run fuel this node = oneSim_run fuel this' node'
  ∧ oneSim fuel this node = oneSim fuel this' node'
  ∧ (∀ myself opponent,
       rollout_players (who (base this)) = Some (myself, opponent) →
       engine myself = default_engine ∧ engine opponent = default_engine
       ∧ meta myself !! "seed"%string = None
       ∧ meta opponent !! "seed"%string = None)
  ∧ (∀ state sp k hk d,
       Z.of_nat k ≤ INT_MAX →
       sim_loop fuel this root_ptr k (expanded state sp) = Some (hk, d) →
       ∀ p n, (0 < p)%nat → hk !! p = Some n → win n = 0 ∨ win n = visit n).
Proof.
  intros Hw Hb. split; [|split; [|split]].
  - unfold oneSim_run. by rewrite Hw, Hb.
  - unfold oneSim, oneSim_run. by rewrite Hw, Hb.
  - intros me op Hpl.
    destruct (who (base this)) eqn:E; [done|..].
    + destruct (rollout_players_spec black) as (me' & op' & Hpl' & _ & _ & _ & _ & ?&?&?&?);
        [by left|]. rewrite Hpl in Hpl'. by injection Hpl' as <- <-.
    + destruct (rollout_players_spec white) as (me' & op' & Hpl' & _ & _ & _ & _ & ?&?&?&?);
        [by right|]. rewrite Hpl in Hpl'. by injection Hpl' as <- <-.
  - intros state sp k hk d Hk Hloop p n Hp Hn.
    destruct (sim_loop_repeated fuel this k (expanded state sp) 0 hk d
                (expanded_depth_one state sp) (expanded_counted state sp)
                ltac:(lia)) with (p := p) (x := n)
      as [[-> ->] | (r & _ & ->)]; [|done..| by left | destruct r; auto].
    intros q x _ Hx. left. by apply expanded_fresh in Hx.
Qed.





(** Claim C8.  On a board where no cell takes a stone of the searching
    player, the expansion of the root makes no child and [Simulation]
    returns the no-op action at once, with any amount of fuel and without a
    failure: the tree is the lone root and no division is evaluated. *)
Theorem take_action_no_legal_move fuel this state :
  shuffle_permutes → space_ok (base this) →
  no_legal_move (who (base this)) state →
  Simulation fuel this state
  = Some (mkOutcome None (shuffled this) (root_only state) [])
  ∧ take_action fuel this state = Some None.
Proof.
  intros Hs [Hw Hperm] Hno.
  assert (Hsim : Simulation fuel this state
                 = Some (mkOutcome None (shuffled this) (root_only state) [])).
  { rewrite Simulation_cases. unfold first_tree, expanded.
    rewrite legal_children_empty; [done|].
    intros m Hm. simpl in Hm. rewrite (Hs _ _), Hperm in Hm.
    apply elem_of_init_space in Hm as (i & Hi & ->). by apply Hno. }
  split; [done|]. unfold take_action. by rewrite Hsim.
Qed.

(** Claim C7.  With a budget between 1 and [INT_MAX] (the constructor sets
    100), every divisor met by a call of [Simulation], in [selection] and in
    the final choice, its first statement included, is a strictly positive
    visit count. *)
Theorem divisions_by_positive_visits fuel this state out :
  1 ≤ sim_counts this ≤ INT_MAX →
  Simulation fuel this state = Some out →
  Forall (λ x, 0 < x) (divisors out).
Proof.
  intros [Hone Hmax] Hrun.
  by apply (Simulation_end fuel this state out Hmax Hrun).
Qed.

End RolloutAndSelection.

Section Requests.
Context {BD : Board} {RNG : Rng} {FA : FloatArith}.

Lemma first_tree_child_legal this state p n :
  (0 < p)%nat → first_tree this state !! p = Some n →
  ∃ m, move n = Some m ∧ place_apply m state = Some (b n).
Proof.
  destruct p as [|p]; [lia|]. intros _. unfold first_tree, expanded. simpl.
  intros Hn. apply list_elem_of_lookup_2 in Hn.
  apply legal_children_spec in Hn as (_ & _ & _ & _ & m & ? & _ & ?). eauto.
Qed.

(** Claim C2.  On a board with a legal placement for the searching player,
    [take_action] returns, for enough fuel, the move of a child [c] of the
    root that was visited and whose quotient [win/visit] is the greatest
    among the visited children, the first of the list among equals
    ([best_rate]); that move is legal on the board the call was given. *)
Theorem take_action_returns_best (μ : board → nat) fuel this state :
  shuffle_permutes → decreasing μ → uct_above_floor →
  ratio_exact (sim_counts this) →
  space_ok (base this) →
  1 ≤ sim_counts this ≤ INT_MAX →
  (μ state < fuel)%nat →
  (∃ i, (i < size_x * size_y)%nat
        ∧ is_Some (place_apply (mkPlace i (who (base this))) state)) →
  ∃ out root c n m,
    Simulation fuel this state = Some out
    ∧ take_action fuel this state = Some (Some m)
    ∧ tree out !! root_ptr = Some root
    ∧ best_rate (tree out) root c
    ∧ tree out !! c = Some n ∧ move n = Some m
    ∧ is_Some (place_apply m state).
Proof.
  intros Hs Hd Hfloor Hexact [Hw Hperm] [Hone Hmax] Hf (i & Hi & Hlegal).
  pose proof (expanded_depth_one state (space (base (shuffled this)))) as Hd1.
  pose proof (expanded_counted state (space (base (shuffled this)))) as Hc0.
  pose proof (expanded_bounded μ fuel state (space (base (shuffled this))) Hd Hf) as Hb.
  fold (first_tree this state) in Hd1, Hc0, Hb.
  assert (Hkids : legal_children root_ptr (space (base (shuffled this))) state ≠ []).
  { apply (legal_children_nonempty _ _ _ (mkPlace i (who (base this)))); [|done].
    simpl. rewrite (Hs _ _), Hperm. apply elem_of_init_space. eauto. }
  assert (Hfuel : (2 ≤ fuel)%nat).
  { destruct (legal_children _ _ state) as [|x xs] eqn:E; [done|].
    assert (x ∈ legal_children root_ptr (space (base (shuffled this))) state)
      as Hx by (rewrite E; left).
    apply legal_children_spec in Hx as (_ & _ & _ & _ & m & _ & _ & Hm).
    apply Hd in Hm. lia. }
  destruct (sim_loop_total μ fuel (shuffled this) Hs Hd Hfloor Hw Hfuel
              (Z.to_nat (sim_counts this)) (first_tree this state) 0 Hb Hd1 Hc0)
    as [[h2 d] Hloop]; [unfold INT_MAX in *; lia|].
  destruct (sim_loop_inv fuel (shuffled this) (Z.to_nat (sim_counts this))
              (first_tree this state) 0 h2 d Hd1 Hc0) as
    (Hshape & _ & Hcnt & _ & Hfs); [unfold INT_MAX in *; lia | done |].
  assert (Hd2 : depth_one h2) by (by eapply depth_one_same_shape).
  pose proof Hcnt as [(r2 & Hr2 & _) _].
  assert (Hne2 : child r2 ≠ []).
  { destruct (same_shape_lookup_inv _ _ _ _ Hshape Hr2) as (r1 & Hr1 & _ & _ & _ & ->).
    unfold first_tree, expanded in Hr1. simpl in Hr1. injection Hr1 as <-. simpl.
    destruct (legal_children _ _ state); done. }
  destruct (decision_spec (sim_counts this) h2 _ r2 Hexact Hd2 Hcnt) as
    (m & d' & c & n & Hdec & Hbest & Hn & ->); [lia | apply Hfs; lia | done | done |].
  assert (Hsim : Simulation fuel this state
                 = Some (mkOutcome (move n) (shuffled this) h2 (d ++ d'))).
  { rewrite Simulation_cases.
    destruct (legal_children _ _ state); [done|].
    rewrite Hloop. simpl. rewrite Hdec. done. }
  assert (Hcpos : (0 < c)%nat).
  { destruct Hbest as (j & ? & Hj & _).
    apply list_elem_of_lookup_2 in Hj.
    by destruct (depth_one_child h2 r2 c Hd2 Hr2 Hj). }
  destruct (same_shape_lookup_inv _ _ _ _ Hshape Hn) as (n1 & Hn1 & Hbn & Hmn & _).
  destruct (first_tree_child_legal this state c n1 Hcpos Hn1) as (m & Hm & Hleg).
  exists (mkOutcome (move n) (shuffled this) h2 (d ++ d')), r2, c, n, m.
  split; [done|]. split.
  { unfold take_action. rewrite Hsim. simpl. f_equal. congruence. }
  simpl. split; [done|]. split; [done|]. split; [done|].
  split; [congruence | by rewrite Hleg].
Qed.

Lemma ancestors_depth_one fuel h c nc :
  depth_one h → h !! c = Some nc → (2 ≤ fuel)%nat →
  head (ancestors fuel h (Some c)) = Some c
  ∧ last (ancestors fuel h (Some c)) = Some root_ptr
  ∧ ∀ q, q ∈ ancestors fuel h (Some c) ↔ q = c ∨ q = root_ptr.
Proof.
  intros (r & Hr & Hpar & _ & Hkids) Hc Hf.
  destruct fuel as [|[|fuel]]; [lia..|].
  destruct c as [|c].
  - assert (nc = r) as -> by (unfold root_ptr in Hr; congruence).
    simpl. unfold root_ptr in Hr. rewrite Hr, Hpar.
    split; [done|]. split; [done|]. intros q. rewrite list_elem_of_singleton.
    unfold root_ptr. tauto.
  - destruct (Hkids (S c) nc ltac:(lia) Hc) as [Hp _].
    change (ancestors (S (S fuel)) h (Some (S c)))
      with (match h !! S c with
            | Some n => S c :: ancestors (S fuel) h (parent n)
            | None => []
            end).
    rewrite Hc, Hp. simpl. unfold root_ptr in *. rewrite Hr, Hpar. 
    assert (Hnil : ancestors fuel h None = []) by (by destruct fuel).
    rewrite Hnil.
    split; [done|]. split; [done|]. intros q.
    rewrite elem_of_cons, list_elem_of_singleton. tauto.
Qed.

(** Claim C5.  [backPropagation] from node [p] adds 1 to [visit] and [w] to
    [win] on every node of the chain of [parent] links from [p] to the root,
    the root included, and leaves the other nodes as they are; after [K]
    passes of the loop on a freshly expanded root the root's [visit] is
    [K]; and the pass that follows them returns, walks from the node that
    [selection] returned, and adds 1 to [win] on the walk exactly when
    [oneSim] on that node returned [true]. *)
Theorem backPropagation_counts (μ : board → nat) :
  (∀ fuel h p w,
     parents_older h → (p < fuel)%nat → (p < length h)%nat →
     w = 0 ∨ w = 1 →
     (∀ q n, h !! q = Some n → 0 ≤ win n ≤ visit n ∧ visit n < INT_MAX) →
     ∃ h' r nr,
       backPropagation fuel h (Some p) w = Some h'
       ∧ head (ancestors fuel h (Some p)) = Some p
       ∧ last (ancestors fuel h (Some p)) = Some r
       ∧ h !! r = Some nr ∧ parent nr = None
       ∧ ∀ q n, h !! q = Some n →
           h' !! q = Some (if bool_decide (q ∈ ancestors fuel h (Some p))
                           then set_counts n (visit n + 1) (win n + w)
                           else n))
  ∧ (∀ fuel this state K,
       shuffle_permutes → decreasing μ → uct_above_floor →
       who (base this) = black ∨ who (base this) = white →
       (μ state + 1 < fuel)%nat → 0 ≤ K ≤ INT_MAX →
       ∃ hK d rK,
         sim_loop fuel (shuffled this) root_ptr (Z.to_nat K) (first_tree this state)
         = Some (hK, d)
         ∧ hK !! root_ptr = Some rK ∧ visit rK = K)
  ∧ (∀ fuel this state K,
       shuffle_permutes → decreasing μ → uct_above_floor →
       who (base this) = black ∨ who (base this) = white →
       (μ state + 1 < fuel)%nat → 0 ≤ K < INT_MAX →
       ∃ hK d c nc won h' d',
         sim_loop fuel (shuffled this) root_ptr (Z.to_nat K) (first_tree this state)
         = Some (hK, d)
         ∧ selection fuel hK (Some root_ptr) = Some (c, d')
         ∧ hK !! c = Some nc
         ∧ oneSim fuel (shuffled this) nc = Some won
         ∧ iteration fuel (shuffled this) root_ptr hK = Some (h', d')
         ∧ head (ancestors fuel hK (Some c)) = Some c
         ∧ last (ancestors fuel hK (Some c)) = Some root_ptr
         ∧ ∀ q n, hK !! q = Some n →
             h' !! q = Some (if bool_decide (q ∈ ancestors fuel hK (Some c))
                             then set_counts n (visit n + 1)
                                    (win n + (if won : bool then 1 else 0))
                             else n)).
Proof.
  split; [|split].
  - intros fuel h p w Hpo Hf Hlen Hw Hcnt.
    destruct (backPropagation_spec w fuel h p Hpo Hf Hlen) as (h' & Hrun & _ & Hlook).
    destruct (ancestors_reach_root fuel h p Hpo Hf Hlen) as (r & nr & Hlast & Hr & Hnone & Hhead).
    exists h', r, nr. repeat split; auto.
    intros q n Hq. rewrite (Hlook q n Hq).
    destruct (Hcnt q n Hq) as [Hwin Hvis].
    by rewrite (bump_exact n w (visit n)) by lia.
  - intros fuel this state K Hs Hd Hfloor Hw Hf HK.
    pose proof (expanded_depth_one state (space (base (shuffled this)))) as Hd1.
    pose proof (expanded_counted state (space (base (shuffled this)))) as Hc0.
    pose proof (expanded_bounded μ fuel state (space (base (shuffled this))) Hd
                  ltac:(lia)) as Hb.
    fold (first_tree this state) in Hd1, Hc0, Hb.
    destruct (sim_loop_total μ fuel (shuffled this) Hs Hd Hfloor Hw ltac:(lia)
                (Z.to_nat K) (first_tree this state) 0 Hb Hd1 Hc0)
      as [[hK d] Hloop]; [lia|].
    destruct (sim_loop_inv fuel (shuffled this) (Z.to_nat K)
                (first_tree this state) 0 hK d Hd1 Hc0) as
      (_ & _ & [(rK & HrK & HvK) _] & _); [lia | done |].
    exists hK, d, rK. repeat split; auto. lia.
  - intros fuel this state K Hs Hd Hfloor Hw Hf HK.
    pose proof (expanded_depth_one state (space (base (shuffled this)))) as Hd1.
    pose proof (expanded_counted state (space (base (shuffled this)))) as Hc0.
    pose proof (expanded_bounded μ fuel state (space (base (shuffled this))) Hd
                  ltac:(lia)) as Hb.
    fold (first_tree this state) in Hd1, Hc0, Hb.
    destruct (sim_loop_total μ fuel (shuffled this) Hs Hd Hfloor Hw ltac:(lia)
                (Z.to_nat K) (first_tree this state) 0 Hb Hd1 Hc0)
      as [[hK d] Hloop]; [lia|].
    destruct (sim_loop_inv fuel (shuffled this) (Z.to_nat K)
                (first_tree this state) 0 hK d Hd1 Hc0) as
      (Hshape & _ & HcK & _); [lia | done |].
    assert (HdK : depth_one hK) by (by eapply depth_one_same_shape).
    assert (HbK : bounded μ fuel hK) by (by eapply bounded_same_shape).
    destruct (iteration_total μ fuel (shuffled this) hK _ Hs Hd Hfloor Hw ltac:(lia)
                HbK HdK HcK) as [[h' d'] Hit].
    pose proof Hit as Hrun. unfold iteration in Hrun.
    apply bind_Some in Hrun as ([c d0] & Hsel & Hrun).
    apply bind_Some in Hrun as (nc & Hc & Hrun).
    apply bind_Some in Hrun as (rb & Hsim & Hrun).
    apply bind_Some in Hrun as (h2 & Hbp & [= <- <-]).
    pose proof HcK as [(rK & HrK & HvK) Hcnt].
    destruct (backPropagation_depth_one fuel hK c nc rK _ h2 HdK HrK Hc Hbp) as [_ Hlook].
    destruct (ancestors_depth_one fuel hK c nc HdK Hc ltac:(lia)) as (Hhead & Hlast & Hmem).
    exists hK, d, c, nc, rb, h2, d0. repeat split; auto.
    intros q n Hq. rewrite (Hlook q n Hq).
    rewrite (bool_decide_ext _ _ (Hmem q)).
    destruct (Hcnt q n Hq) as [Hwin Hvis].
    rewrite (bump_exact n _ (0 + Z.of_nat (Z.to_nat K))); [done | done | done | lia |].
    destruct rb; auto.
Qed.

Lemma counts_ok_bump n w k :
  0 ≤ win n ≤ visit n → visit n ≤ k → k < INT_MAX → w = 0 ∨ w = 1 →
  counts_ok (set_counts n (int_wrap (visit n + 1)) (win n)) ∧ counts_ok (bump n w).
Proof.
  intros Hw Hv Hk Hw01. rewrite (bump_exact n w k) by done.
  unfold counts_ok. simpl. unfold INT_MAX in *.
  rewrite int_wrap_small by lia. lia.
Qed.

(** Claim C6.  Nodes are created with [visit = win = 0]; after every pass
    of the loop every node has [0 <= win <= visit]; so has every tree met
    inside the walk of the next pass (after the increment of [visit] alone,
    and after a whole node was updated); and so has the tree a call ends
    with. *)
Theorem win_le_visit_always fuel this state :
  sim_counts this ≤ INT_MAX →
  Forall (λ n, visit n = 0 ∧ win n = 0) (root_only state)
  ∧ Forall (λ n, visit n = 0 ∧ win n = 0) (first_tree this state)
  ∧ (∀ k hk d,
       Z.of_nat k ≤ sim_counts this →
       sim_loop fuel (shuffled this) root_ptr k (first_tree this state) = Some (hk, d) →
       Forall counts_ok hk
       ∧ (Z.of_nat k < sim_counts this →
          ∀ p n w, hk !! p = Some n → w = 0 ∨ w = 1 →
            counts_ok (set_counts n (int_wrap (visit n + 1)) (win n))
            ∧ Forall counts_ok (<[p := bump n w]> hk)))
  ∧ (∀ out, Simulation fuel this state = Some out → Forall counts_ok (tree out)).
Proof.
  intros Hmax.
  pose proof (expanded_depth_one state (space (base (shuffled this)))) as Hd1.
  pose proof (expanded_counted state (space (base (shuffled this)))) as Hc0.
  fold (first_tree this state) in Hd1, Hc0.
  split; [by repeat constructor|]. split; [|split].
  - apply Forall_lookup. intros p n Hn. by eapply expanded_fresh.
  - intros k hk d Hk Hloop.
    destruct (sim_loop_inv fuel (shuffled this) k (first_tree this state) 0 hk d Hd1 Hc0)
      as (_ & _ & [_ Hcnt] & _); [lia | done |].
    split.
    + apply Forall_lookup. intros p n Hn. destruct (Hcnt p n Hn). split; lia.
    + intros Hlt p n w Hn Hw.
      destruct (Hcnt p n Hn) as [Hwin Hvis].
      destruct (counts_ok_bump n w (Z.of_nat k)) as [H1 H2]; [lia..|].
      split; [done|].
      apply Forall_lookup. intros q nq Hq.
      destruct (decide (q = p)) as [-> | Hne].
      * rewrite list_lookup_insert_eq in Hq by (by eapply lookup_lt_Some).
        by injection Hq as <-.
      * rewrite list_lookup_insert_ne in Hq by done.
        destruct (Hcnt q nq Hq). split; lia.
  - intros out Hrun. apply Forall_lookup. intros p n Hn.
    destruct (Simulation_end fuel this state out Hmax Hrun) as (_ & _ & Hcnt & _).
    destruct (Hcnt p n Hn). split; lia.
Qed.

(** Claim C9.  The tree of a call has depth one from the expansion of the
    root to the end: the passes of the loop add no node, every node but the
    root has the root as parent and no child, and the node a pass selects is
    a child of the root. *)
Theorem search_tree_depth_one fuel this state :
  sim_counts this ≤ INT_MAX →
  expansion this root_ptr (root_only state)
  = Some (shuffled this, first_tree this state)
  ∧ depth_one (first_tree this state)
  ∧ (∀ k hk d,
       Z.of_nat k ≤ sim_counts this →
       sim_loop fuel (shuffled this) root_ptr k (first_tree this state) = Some (hk, d) →
       depth_one hk ∧ length hk = length (first_tree this state)
       ∧ ∀ r c d', hk !! root_ptr = Some r → child r ≠ [] →
           selection fuel hk (Some root_ptr) = Some (c, d') →
           c ∈ child r
           ∧ ∃ n, hk !! c = Some n ∧ parent n = Some root_ptr ∧ child n = [])
  ∧ (∀ out, Simulation fuel this state = Some out → depth_one (tree out)).
Proof.
  intros Hmax.
  pose proof (expanded_depth_one state (space (base (shuffled this)))) as Hd1.
  pose proof (expanded_counted state (space (base (shuffled this)))) as Hc0.
  fold (first_tree this state) in Hd1, Hc0.
  split; [apply expansion_first_tree|]. split; [done|]. split.
  - intros k hk d Hk Hloop.
    destruct (sim_loop_inv fuel (shuffled this) k (first_tree this state) 0 hk d Hd1 Hc0)
      as (Hshape & _ & [_ Hcnt] & _); [lia | done |].
    assert (Hdk : depth_one hk) by (by eapply depth_one_same_shape).
    split; [done|]. split; [apply Hshape|].
    intros r c d' Hr Hne Hsel.
    destruct (selection_depth_one fuel hk c d' Hdk) as (_ & r' & Hr' & Hwhere & _); auto.
    { intros p n Hn. destruct (Hcnt p n Hn). lia. }
    assert (r' = r) as -> by congruence.
    destruct Hwhere as [[Hnil _] | Hin]; [done|].
    split; [done|].
    destruct (depth_one_child hk r c Hdk Hr Hin) as (_ & n & ?&?&?). eauto.
  - intros out Hrun.
    by destruct (Simulation_end fuel this state out Hmax Hrun) as (_ & ? & _).
Qed.

(** Claim C1, as amended.  The loop expands nothing: its passes change
    counters only, so every node keeps the children it had when the loop
    began.  In a call of [Simulation] the root alone is expanded, once,
    before the loop: the tree it ends with has one node per legal placement
    below the root, and each of them is childless. *)
Theorem expansion_only_at_root fuel this state :
  (∀ root n h h' d, sim_loop fuel this root n h = Some (h', d) → same_shape h h')
  ∧ (∀ out, Simulation fuel this state = Some out →
       same_shape (first_tree this state) (tree out)
       ∧ length (tree out)
         = S (length (legal_children root_ptr (space (base (shuffled this))) state))
       ∧ ∀ p n, (0 < p)%nat → tree out !! p = Some n → child n = []).
Proof.
  split; [intros root n h h' d; apply sim_loop_same_shape|].
  intros out Hrun.
  assert (Hshape : same_shape (first_tree this state) (tree out)).
  { rewrite Simulation_cases in Hrun.
    destruct (legal_children _ _ state) as [|x xs].
    - injection Hrun as <-. apply same_shape_refl.
    - apply bind_Some in Hrun as ([h2 d] & Hloop & Hrun).
      apply bind_Some in Hrun as ([m d'] & _ & [= <-]). simpl.
      by eapply sim_loop_same_shape. }
  split; [done|]. split.
  - destruct Hshape as [-> _]. done.
  - intros p n Hp Hn.
    pose proof (expanded_depth_one state (space (base (shuffled this)))) as Hd1.
    fold (first_tree this state) in Hd1.
    destruct (depth_one_same_shape _ _ Hshape Hd1) as (_ & _ & _ & _ & Hkids).
    by destruct (Hkids p n Hp Hn).
Qed.

End Requests.

(** ** The rest of [agent.h] *)


Section ConfigFacts.

Lemma words_defaults args :
  Config.words ("name=unknown role=unknown " +:+ args)
  = "name=unknown"%string :: "role=unknown"%string :: Config.words args.
Proof. reflexivity. Qed.

Lemma agent_meta_words args :
  Config.agent_meta args = Config.parse_pairs (Config.words args) default_meta.
Proof. unfold Config.agent_meta. rewrite words_defaults. reflexivity. Qed.

Lemma parse_pairs_app ws ws' m :
  Config.parse_pairs (ws ++ ws') m = Config.parse_pairs ws' (Config.parse_pairs ws m).
Proof.
  revert m. induction ws as [|w ws IH]; intros m; simpl; [done|].
  destruct (Config.split_pair w). apply IH.
Qed.

Lemma parse_pairs_keeps ws m k :
  is_Some (m !! k) → is_Some (Config.parse_pairs ws m !! k).
Proof.
  revert m. induction ws as [|w ws IH]; intros m Hk; simpl; [done|].
  destruct (Config.split_pair w) as [k' v']. apply IH.
  destruct (decide (k' = k)) as [-> | Hne].
  - rewrite lookup_insert_eq. by eexists.
  - by rewrite lookup_insert_ne.
Qed.

Lemma words_from_app_space cur s1 c s2 :
  Config.is_space c = true →
  Config.words_from cur (s1 +:+ String c s2)
  = Config.words_from cur s1 ++ Config.words s2.
Proof.
  intros Hc. revert cur. induction s1 as [|a s1 IH]; intros cur; simpl.
  - rewrite Hc. unfold Config.words. by destruct (decide (cur = ""%string)).
  - destruct (Config.is_space a).
    + destruct (decide (cur = ""%string)); simpl; by rewrite IH.
    + apply IH.
Qed.

Lemma append_empty_r s : (s +:+ "")%string = s.
Proof. induction s as [|a s IH]; [done | unfold String.append; fold String.append; simpl; f_equal; exact IH]. Qed.

Lemma append_assoc' (s1 s2 s3 : string) : ((s1 +:+ s2) +:+ s3 = s1 +:+ (s2 +:+ s3)).
Proof. induction s1 as [|a s1 IH]; [done | unfold String.append; fold String.append; simpl; f_equal; exact IH]. Qed.

Lemma words_from_token cur t :
  blank_free t = true → (cur +:+ t ≠ ""%string) →
  Config.words_from cur t = [cur +:+ t].
Proof.
  revert cur. induction t as [|a t IH]; intros cur Hb Hne; simpl in *.
  - rewrite append_empty_r in *. by destruct (decide (cur = ""%string)).
  - apply andb_true_iff in Hb as [Ha Hb]. apply negb_true_iff in Ha. rewrite Ha.
    rewrite IH; [|done|].
    + by rewrite append_assoc'.
    + rewrite append_assoc'. done.
Qed.

Lemma prefix_eq_cons a s :
  String.prefix "=" (String a s) = if ascii_dec "=" a then true else false.
Proof.
  destruct (ascii_dec "=" a) as [<- | Hne].
  - apply String.prefix_correct. by destruct s.
  - destruct (String.prefix "=" (String a s)) eqn:E; [|done].
    apply String.prefix_correct in E. destruct s; simpl in E; congruence.
Qed.

Lemma index_eq_cons a s :
  String.index 0 "=" (String a s)
  = if ascii_dec "=" a then Some 0%nat
    else match String.index 0 "=" s with Some n => Some (S n) | None => None end.
Proof.
  change (String.index 0 "=" (String a s))
    with (if String.prefix "=" (String a s) then Some 0%nat
          else match String.index 0 "=" s with Some n => Some (S n) | None => None end).
  rewrite prefix_eq_cons. by destruct (ascii_dec "=" a).
Qed.

Lemma index_eq_append k v :
  String.index 0 "=" k = None →
  String.index 0 "=" (k +:+ String "=" v) = Some (String.length k).
Proof.
  induction k as [|a k IH].
  - intros _. change ("" +:+ String "=" v) with (String "=" v).
    rewrite index_eq_cons. by destruct (ascii_dec "=" "=").
  - change (String a k +:+ String "=" v) with (String a (k +:+ String "=" v)).
    rewrite !index_eq_cons. destruct (ascii_dec "=" a) as [Heq | Hne]; [done|].
    destruct (String.index 0 "=" k) eqn:E; [done|]. intros _. by rewrite IH.
Qed.

Lemma substring_append_l k s :
  String.substring 0 (String.length k) (k +:+ s) = k.
Proof. induction k as [|a k IH]; [by destruct s | unfold String.append; fold String.append; simpl; f_equal; exact IH]. Qed.

Lemma substring_all s : String.substring 0 (String.length s) s = s.
Proof. induction s as [|a s IH]; [done | unfold String.append; fold String.append; simpl; f_equal; exact IH]. Qed.

Lemma substring_append_r k s :
  String.substring (String.length k) (String.length s) (k +:+ s) = s.
Proof. induction k as [|a k IH]; simpl; [apply substring_all | done]. Qed.

Lemma length_append' (s1 s2 : string) :
  String.length (s1 +:+ s2) = (String.length s1 + String.length s2)%nat.
Proof. induction s1 as [|a s1 IH]; [done | unfold String.append; fold String.append; simpl; f_equal; exact IH]. Qed.

Lemma substring_after k c v n :
  String.substring (S (String.length k)) n (k +:+ String c v)
  = String.substring 0 n v.
Proof.
  induction k as [|a k IH]; [done|].
  unfold String.append; fold String.append. simpl. exact IH.
Qed.

Lemma split_pair_join k v :
  String.index 0 "=" k = None →
  Config.split_pair (k +:+ String "=" v) = (k, v).
Proof.
  intros Hk. unfold Config.split_pair. rewrite (index_eq_append k v Hk).
  rewrite substring_append_l, substring_after, length_append'. simpl.
  replace (String.length k + S (String.length v) - S (String.length k))%nat
    with (String.length v) by lia.
  by rewrite substring_all.
Qed.

Lemma split_pair_plain msg :
  String.index 0 "=" msg = None → Config.split_pair msg = (msg, msg).
Proof. intros Hk. unfold Config.split_pair. by rewrite Hk. Qed.

Lemma split_at_index w : ∀ i,
  String.index 0 "=" w = Some i →
  w = String.substring 0 i w
        +:+ String "=" (String.substring (S i) (String.length w - S i) w)
  ∧ String.index 0 "=" (String.substring 0 i w) = None.
Proof.
  induction w as [|a w IH]; intros i; [done|].
  rewrite index_eq_cons. destruct (ascii_dec "=" a) as [<- | Hne].
  - intros [= <-]. simpl. rewrite Nat.sub_0_r, substring_all. done.
  - destruct (String.index 0 "=" w) as [n|] eqn:E; [|done]. intros [= <-].
    destruct (IH n eq_refl) as [Hw Hnone].
    change (String.substring 0 (S n) (String a w))
      with (String a (String.substring 0 n w)).
    change (String.substring (S (S n)) (String.length (String a w) - S (S n)) (String a w))
      with (String.substring (S n) (String.length w - S n) w).
    split.
    + change (String a ?x +:+ ?y) with (String a (x +:+ y)). by rewrite <- Hw.
    + rewrite index_eq_cons, Hnone. by destruct (ascii_dec "=" a).
Qed.

Lemma blank_free_append s t :
  blank_free (s +:+ t) = blank_free s && blank_free t.
Proof.
  induction s as [|a s IH]; [done|].
  unfold String.append; fold String.append. simpl. rewrite IH.
  by rewrite andb_assoc.
Qed.

Lemma blank_free_substring s : ∀ n m,
  blank_free s = true → blank_free (String.substring n m s) = true.
Proof.
  induction s as [|a s IH]; intros n m Hs.
  - by destruct n, m.
  - simpl in Hs. apply andb_true_iff in Hs as [Ha Hs].
    destruct n as [|n]; simpl.
    + destruct m as [|m]; [done|]. simpl. rewrite Ha. by apply IH.
    + by apply IH.
Qed.

Lemma words_from_blank_free s : ∀ cur,
  blank_free cur = true → Forall (λ w, blank_free w = true) (Config.words_from cur s).
Proof.
  induction s as [|a s IH]; intros cur Hcur; simpl.
  - destruct (decide (cur = ""%string)); by repeat constructor.
  - destruct (Config.is_space a) eqn:Ha.
    + destruct (decide (cur = ""%string)); [by apply IH|].
      constructor; [done | by apply IH].
    + apply IH. rewrite blank_free_append, Hcur. simpl. by rewrite Ha.
Qed.

Lemma split_pair_blank_free w k v :
  blank_free w = true → Config.split_pair w = (k, v) →
  blank_free k = true ∧ blank_free v = true.
Proof.
  intros Hw. unfold Config.split_pair.
  destruct (String.index 0 "=" w) as [i|]; intros [= <- <-];
    [split; by apply blank_free_substring | done].
Qed.

Lemma parse_pairs_blank_free ws : ∀ m,
  Forall (λ w, blank_free w = true) ws →
  map_Forall (λ k v, blank_free k = true ∧ blank_free v = true) m →
  map_Forall (λ k v, blank_free k = true ∧ blank_free v = true)
             (Config.parse_pairs ws m).
Proof.
  induction ws as [|w ws IH]; intros m Hws Hm; simpl; [done|].
  apply Forall_cons in Hws as [Hw Hws].
  destruct (Config.split_pair w) as [k v] eqn:E.
  apply IH; [done|]. apply map_Forall_insert_2; [|done].
  by eapply split_pair_blank_free.
Qed.

Lemma default_meta_name : default_meta !! "name"%string = Some "unknown"%string.
Proof. reflexivity. Qed.
Lemma default_meta_role : default_meta !! "role"%string = Some "unknown"%string.
Proof. reflexivity. Qed.

Lemma agent_meta_name_role args :
  is_Some (Config.agent_meta args !! "name"%string)
  ∧ is_Some (Config.agent_meta args !! "role"%string).
Proof.
  rewrite agent_meta_words. split; apply parse_pairs_keeps.
  - by rewrite default_meta_name.
  - by rewrite default_meta_role.
Qed.

(** Extra X1.  A token with an ['='] splits into [(k, v)] exactly when it is
    [k=v] with no ['='] in [k]: the split is at the first ['='], and joining
    the two parts gives the token back. *)
Theorem split_pair_round_trip w k v :
  (Config.split_pair w = (k, v) ∧ is_Some (String.index 0 "=" w))
  ↔ (w = k +:+ "=" +:+ v ∧ String.index 0 "=" k = None).
Proof.
  split.
  - intros [Hsplit [i Hi]]. unfold Config.split_pair in Hsplit. rewrite Hi in Hsplit.
    injection Hsplit as <- <-. by apply split_at_index.
  - intros [-> Hk]. change (k +:+ "=" +:+ v) with (k +:+ String "=" v).
    split; [by apply split_pair_join|]. rewrite index_eq_append by done. by eexists.
Qed.

(** Extra X2.  The constructor of [agent] reads the tokens of [args] on top
    of the defaults [name=unknown role=unknown]: the map always holds a name
    and a role, so [name()] and [role()] never throw, and both are
    ["unknown"] when [args] holds no token. *)
Theorem agent_meta_defaults args :
  Config.agent_meta args = Config.parse_pairs (Config.words args) default_meta
  ∧ is_Some (Agent.name (Config.agent_meta args))
  ∧ is_Some (Agent.role (Config.agent_meta args))
  ∧ (Config.words args = [] →
       Agent.name (Config.agent_meta args) = Some "unknown"%string
       ∧ Agent.role (Config.agent_meta args) = Some "unknown"%string).
Proof.
  split; [apply agent_meta_words|].
  split; [apply agent_meta_name_role|]. split; [apply agent_meta_name_role|].
  rewrite agent_meta_words. intros ->. done.
Qed.

(** Extra X3.  A pair [k=v] appended to the arguments sets [k] to [v] in the
    map and leaves the rest as it was: a later pair overrides an earlier one
    and the defaults. *)
Theorem agent_meta_override args k v :
  String.index 0 "=" k = None → blank_free k = true → blank_free v = true →
  Config.agent_meta (args +:+ " " +:+ k +:+ "=" +:+ v)
  = <[k := v]> (Config.agent_meta args).
Proof.
  intros Hk Hbk Hbv. rewrite !agent_meta_words.
  change (args +:+ " " +:+ k +:+ "=" +:+ v)
    with (args +:+ String " " (k +:+ String "=" v)).
  unfold Config.words. rewrite words_from_app_space by done.
  unfold Config.words. rewrite (words_from_token "" (k +:+ String "=" v)).
  - rewrite parse_pairs_app. simpl. change ("" +:+ ?x) with x.
    by rewrite (split_pair_join k v Hk).
  - rewrite blank_free_append. simpl. by rewrite Hbk, Hbv.
  - change ("" +:+ ?x) with x. by destruct k.
Qed.

(** Extra X4.  No key and no value of the map holds a blank character. *)
Theorem agent_meta_blank_free args k v :
  Config.agent_meta args !! k = Some v →
  blank_free k = true ∧ blank_free v = true.
Proof.
  intros Hkv. rewrite agent_meta_words in Hkv. revert k v Hkv.
  apply parse_pairs_blank_free.
  - by apply words_from_blank_free.
  - unfold default_meta. apply map_Forall_insert_2; [done|].
    apply map_Forall_insert_2; [done|]. apply map_Forall_empty.
Qed.

(** Extra X5.  After [notify] of [k=v], [property(k)] is [v] and every other
    key is as before; a message without ['='] is stored under itself. *)
Theorem notify_property meta k v :
  String.index 0 "=" k = None →
  Agent.property (Agent.notify (k +:+ "=" +:+ v) meta) k = Some v
  ∧ (∀ k', k' ≠ k →
       Agent.property (Agent.notify (k +:+ "=" +:+ v) meta) k'
       = Agent.property meta k')
  ∧ Agent.property (Agent.notify k meta) k = Some k.
Proof.
  intros Hk. unfold Agent.property, Agent.notify.
  change (k +:+ "=" +:+ v) with (k +:+ String "=" v).
  rewrite (split_pair_join k v Hk), (split_pair_plain k Hk).
  split; [apply lookup_insert_eq|]. split; [|apply lookup_insert_eq].
  intros k' Hne. by apply lookup_insert_ne.
Qed.

End ConfigFacts.


Section RandomPlayerFacts.
Context {BD : Board} {RNG : Rng}.

Lemma init_space_length w : length (init_space w) = (size_x * size_y)%nat.
Proof. unfold init_space. by rewrite length_map, length_seq. Qed.

Lemma rp_take_action_fair p state :
  shuffle_permutes → space_ok p →
  fair_answer (who p) state (rp_take_action p state).1.
Proof.
  intros Hs [Hw Hp]. unfold rp_take_action.
  pose proof (Hs (space p) (engine p)) as Hperm.
  destruct (shuffle (space p) (engine p)) as [sp e]. simpl in *.
  destruct (first_legal sp state) as [m|] eqn:E; simpl.
  - apply first_legal_Some in E as [Hin Hl].
    rewrite Hperm, Hp in Hin. apply elem_of_init_space in Hin as (i & Hi & ->).
    done.
  - intros i Hi. apply (first_legal_None _ _ E).
    rewrite Hperm, Hp. apply elem_of_init_space. eauto.
Qed.

(** Extra X6.  The constructor of [random_player] throws exactly when the
    seed does not convert, the name holds one of the characters [[]():; ], or
    the role is neither [black] nor [white].  Otherwise the player holds the
    map of [agent], the placements of its colour in board order, the seeded
    (or default) engine, and the colour its role names. *)
Theorem random_player_new_outcome args :
  (random_player_new args = None ↔
     (∃ v, Config.agent_meta args !! "seed"%string = Some v ∧ seed_engine v = None)
     ∨ (∃ n, Agent.name (Config.agent_meta args) = Some n
             ∧ Config.has_any_of "[]():; " n = true)
     ∨ (Agent.role (Config.agent_meta args) ≠ Some "black"%string
        ∧ Agent.role (Config.agent_meta args) ≠ Some "white"%string))
  ∧ (∀ p, random_player_new args = Some p →
       meta p = Config.agent_meta args
       ∧ space p = init_space (who p)
       ∧ Some (engine p)
         = match Config.agent_meta args !! "seed"%string with
           | Some v => seed_engine v
           | None => Some default_engine
           end
       ∧ ((who p = black ∧ Agent.role (meta p) = Some "black"%string)
          ∨ (who p = white ∧ Agent.role (meta p) = Some "white"%string))).
Proof.
  destruct (agent_meta_name_role args) as [[n Hn] [r Hr]].
  unfold Agent.name, Agent.role, Agent.property.
  unfold random_player_new. rewrite Hn, Hr. simpl.
  split.
  - split.
    + intros Hnone.
      destruct (Config.agent_meta args !! "seed"%string) as [v|] eqn:Hseed.
      * destruct (seed_engine v) as [e|] eqn:He; [|left; eauto]. simpl in Hnone.
        destruct (Config.has_any_of _ n) eqn:Hbad; [right; left; eauto|].
        simpl in Hnone. right; right.
        destruct (decide (r = "white"%string)) as [-> | Hw]; [done|].
        destruct (decide (r = "black"%string)) as [-> | Hb]; [done|].
        split; congruence.
      * simpl in Hnone.
        destruct (Config.has_any_of _ n) eqn:Hbad; [right; left; eauto|].
        simpl in Hnone. right; right.
        destruct (decide (r = "white"%string)) as [-> | Hw]; [done|].
        destruct (decide (r = "black"%string)) as [-> | Hb]; [done|].
        split; congruence.
    + intros [(v & -> & ->) | [(n' & [= <-] & ->) | [Hb Hw]]]; simpl; [done| |].
      * by destruct (match Config.agent_meta args !! "seed"%string with
                     | Some v => seed_engine v | None => Some default_engine end).
      * destruct (match Config.agent_meta args !! "seed"%string with
                  | Some v => seed_engine v | None => Some default_engine end);
          [|done]. simpl.
        destruct (Config.has_any_of _ n); [done|]. simpl.
        destruct (decide (r = "white"%string)) as [-> | Hw']; [done|].
        destruct (decide (r = "black"%string)) as [-> | Hb']; done.
  - intros p Hp.
    destruct (match Config.agent_meta args !! "seed"%string with
              | Some v => seed_engine v | None => Some default_engine end)
      as [e|] eqn:He; [|done]. simpl in Hp.
    destruct (Config.has_any_of _ n); [done|]. simpl in Hp.
    destruct (decide (r = "white"%string)) as [-> | Hw].
    + simpl in Hp. injection Hp as <-. simpl. rewrite Hr. auto 10.
    + destruct (decide (r = "black"%string)) as [-> | Hb]; [|done].
      simpl in Hp. injection Hp as <-. simpl. rewrite Hr. auto 10.
Qed.

(** Extra X7.  Without a token in the arguments, as with the default
    argument, the constructors of [random_player] and [MCTS_player] throw:
    the role is the default ["unknown"]. *)
Theorem random_player_new_blank args :
  Config.words args = [] →
  random_player_new args = None ∧ MCTS_player_new args = None.
Proof.
  intros Hblank.
  assert (Hnone : random_player_new args = None).
  { unfold random_player_new. rewrite agent_meta_words, Hblank. reflexivity. }
  split; [done|]. unfold MCTS_player_new. by rewrite Hnone.
Qed.

(** Extra X8.  [random_player::take_action] answers with a legal placement of
    the player's colour on the board, or with the no-op when the player has
    no legal placement; it leaves the player with its colour and map, and
    with [space] a duplicate-free rearrangement of all the placements. *)
Theorem rp_take_action_contract p state :
  shuffle_permutes → space_ok p →
  fair_answer (who p) state (rp_take_action p state).1
  ∧ space_ok (rp_take_action p state).2
  ∧ who (rp_take_action p state).2 = who p
  ∧ meta (rp_take_action p state).2 = meta p
  ∧ length (space (rp_take_action p state).2) = (size_x * size_y)%nat
  ∧ NoDup (space (rp_take_action p state).2).
Proof.
  intros Hs Hok. split; [by apply rp_take_action_fair|].
  destruct Hok as [Hw Hp]. unfold rp_take_action.
  pose proof (Hs (space p) (engine p)) as Hperm.
  destruct (shuffle (space p) (engine p)) as [sp e]. simpl in *.
  assert (Hsp : sp ≡ₚ init_space (who p)) by (by etrans).
  split; [by split|]. split; [done|]. split; [done|]. split.
  - by rewrite Hsp, init_space_length.
  - rewrite Hsp. unfold init_space. apply NoDup_fmap_2; [|apply NoDup_seq].
    by intros i j [= ->].
Qed.

End RandomPlayerFacts.


Section ExpansionFacts.
Context {BD : Board} {RNG : Rng} {FA : FloatArith}.

Lemma expansion_loop_spec node moves :
  ∀ h n, h !! node = Some n →
    expansion_loop node moves h
    = Some (<[node := with_children n
                        (seq (length h) (length (legal_children node moves (b n))))]>
              (h ++ legal_children node moves (b n))).
Proof.
  induction moves as [|m rest IH]; intros h n Hn; simpl.
  - rewrite app_nil_r. f_equal. symmetry. apply list_insert_id.
    rewrite Hn. f_equal. unfold with_children. rewrite app_nil_r. by destruct n.
  - rewrite Hn. simpl. destruct (place_apply m (b n)) as [after|] eqn:E; [|by apply IH].
    pose proof (lookup_lt_Some _ _ _ Hn) as Hlt.
    erewrite IH.
    2:{ rewrite list_lookup_insert_eq; [done|]. rewrite length_app. simpl.
        lia. }
    f_equal. simpl.
    rewrite <- insert_app_l by (rewrite length_app; apply Nat.lt_lt_add_r, Hlt).
    rewrite list_insert_insert_eq, length_insert, length_app. simpl.
    rewrite <- app_assoc. simpl. f_equal.
    unfold with_children, push_child. simpl. f_equal.
    rewrite <- app_assoc. simpl. by rewrite Nat.add_1_r.
Qed.

Lemma legal_children_moves node moves bd :
  omap move (legal_children node moves bd)
  = filter (λ m, is_Some (place_apply m bd)) moves.
Proof.
  induction moves as [|m rest IH]; [done|].
  rewrite filter_cons. simpl. destruct (place_apply m bd) as [after|] eqn:E.
  - rewrite decide_True by (by eexists). simpl. f_equal. exact IH.
  - rewrite decide_False by (by intros [? ?]). exact IH.
Qed.

Lemma legal_children_length node moves bd :
  length (legal_children node moves bd)
  = length (filter (λ m, is_Some (place_apply m bd)) moves).
Proof.
  rewrite <- (legal_children_moves node). 
  induction moves as [|m rest IH]; simpl; [done|].
  destruct (place_apply m bd); simpl; by rewrite IH.
Qed.

(** Extra X9.  [expansion] at any node of the arena shuffles [space] once,
    appends one fresh node per placement that is legal on the node's board,
    in shuffled order, and pushes their addresses onto the node's [child]
    vector.  The new nodes have zero counters, no children, the expanded node
    as parent and the board after their move; parents stay older than their
    children. *)
Theorem expansion_any_node this node h n :
  h !! node = Some n →
  ∃ added,
    added = legal_children node (space (base (shuffled this))) (b n)
    ∧ expansion this node h
      = Some (shuffled this,
              <[node := with_children n (seq (length h) (length added))]> (h ++ added))
    ∧ (∀ x, x ∈ added → visit x = 0 ∧ win x = 0 ∧ parent x = Some node ∧ child x = []
            ∧ ∃ m, move x = Some m ∧ place_apply m (b n) = Some (b x))
    ∧ (parents_older h →
       parents_older (<[node := with_children n (seq (length h) (length added))]>
                        (h ++ added))).
Proof.
  intros Hn. eexists. split; [reflexivity|].
  pose proof (lookup_lt_Some _ _ _ Hn) as Hlt.
  split; [|split].
  - unfold expansion, shuffled. simpl.
    destruct (shuffle (space (base this)) (engine (base this))) as [sp e]. simpl.
    by rewrite (expansion_loop_spec node sp h n Hn).
  - intros x Hx. apply legal_children_spec in Hx as (?&?&?&?& m & ?&?&?). eauto 10.
  - intros Hpo p x q Hx Hq.
    destruct (decide (p = node)) as [-> | Hne].
    + rewrite list_lookup_insert_eq in Hx by (rewrite length_app; lia).
      injection Hx as <-. simpl in Hq. by eapply Hpo.
    + rewrite list_lookup_insert_ne in Hx by done.
      apply lookup_app_Some in Hx as [Hx | [Hge Hx]]; [by eapply Hpo|].
      apply list_elem_of_lookup_2, legal_children_spec in Hx as (_&_& Hpar &_).
      rewrite Hpar in Hq. injection Hq as <-. lia.
Qed.



End ExpansionFacts.


Section CallFacts.
Context {BD : Board} {RNG : Rng} {FA : FloatArith}.

Lemma decision_loop_member h cs :
  (∀ c, c ∈ cs → is_Some (h !! c)) →
  ∀ bwr bm, ∃ m d,
    decision_loop h cs bwr bm = Some (m, d)
    ∧ (m = bm ∨ ∃ c n, c ∈ cs ∧ h !! c = Some n ∧ m = move n).
Proof.
  induction cs as [|x rest IH]; intros Hall bwr bm; simpl.
  - exists bm, []. split; [done | by left].
  - destruct (Hall x) as [nx Hx]; [left|]. rewrite Hx. simpl.
    assert (Hall' : ∀ c, c ∈ rest → is_Some (h !! c)).
    { intros c Hc. apply Hall. by right. }
    assert (Hlift : ∀ m, (∃ c n, c ∈ rest ∧ h !! c = Some n ∧ m = move n) →
                     ∃ c n, c ∈ x :: rest ∧ h !! c = Some n ∧ m = move n).
    { intros m (c & n & Hc & Hn & ->). exists c, n. split; [by right | done]. }
    destruct (visit nx =? 0).
    + destruct (IH Hall' bwr bm) as (m & d & -> & Hm). exists m, d. split; [done|].
      destruct Hm as [-> | Hm]; [by left | right; auto].
    + destruct (fgt _ bwr).
      * destruct (IH Hall' (win_rate (win nx) (visit nx)) (move nx)) as (m & d & -> & Hm).
        simpl. eexists m, _. split; [done|]. right.
        destruct Hm as [-> | Hm]; [|auto].
        exists x, nx. split; [left | done].
      * destruct (IH Hall' bwr bm) as (m & d & -> & Hm).
        simpl. eexists m, _. split; [done|].
        destruct Hm as [-> | Hm]; [by left | right; auto].
Qed.

Lemma decision_loop_unvisited h cs :
  (∀ c, c ∈ cs → ∃ n, h !! c = Some n ∧ visit n = 0) →
  ∀ bwr bm, decision_loop h cs bwr bm = Some (bm, []).
Proof.
  induction cs as [|x rest IH]; intros Hall bwr bm; simpl; [done|].
  destruct (Hall x) as (nx & Hx & Hv); [left|]. rewrite Hx. simpl. rewrite Hv. simpl.
  apply IH. intros c Hc. apply Hall. by right.
Qed.

Lemma decision_member h r :
  depth_one h → h !! root_ptr = Some r → child r ≠ [] →
  ∃ m d c n, decision h = Some (m, d) ∧ c ∈ child r ∧ h !! c = Some n ∧ m = move n.
Proof.
  intros Hd1 Hr Hne. unfold decision. rewrite Hr. simpl.
  destruct (child r) as [|c1 rest] eqn:Hch; [done|]. simpl.
  destruct (depth_one_child h r c1 Hd1 Hr) as (_ & n0 & Hn0 & _); [rewrite Hch; left|].
  rewrite Hn0. simpl.
  destruct (decision_loop_member h (c1 :: rest)) with
    (bwr := win_rate (win n0) (visit n0)) (bm := move n0) as (m & d & Hrun & Hm).
  { intros c Hc. rewrite <- Hch in Hc.
    destruct (depth_one_child h r c Hd1 Hr Hc) as (_ & n & -> & _). done. }
  simpl in Hrun. rewrite Hn0 in Hrun. simpl in Hrun. rewrite Hrun. simpl.
  eexists m, _. destruct Hm as [-> | (c & n & Hc & Hn & ->)].
  - exists c1, n0. split; [done|]. split; [left | done].
  - exists c, n. done.
Qed.

Lemma legal_children_nil_inv node moves bd :
  legal_children node moves bd = [] → ∀ m, m ∈ moves → place_apply m bd = None.
Proof.
  induction moves as [|x rest IH]; simpl; intros Hnil m Hm.
  - by apply elem_of_nil in Hm.
  - destruct (place_apply x bd) eqn:E; [done|].
    apply elem_of_cons in Hm as [-> | Hm]; auto.
Qed.

Lemma legal_children_head node moves bd :
  first_legal moves bd = head (legal_children node moves bd) ≫= move.
Proof.
  induction moves as [|x rest IH]; simpl; [done|].
  by destruct (place_apply x bd).
Qed.

Lemma shuffled_base this state :
  base (shuffled this) = (rp_take_action (base this) state).2.
Proof.
  unfold shuffled, rp_take_action. simpl.
  by destruct (shuffle (space (base this)) (engine (base this))).
Qed.

Lemma shuffled_first_legal this state :
  first_legal (space (base (shuffled this))) state = (rp_take_action (base this) state).1.
Proof.
  unfold shuffled, rp_take_action. simpl.
  by destruct (shuffle (space (base this)) (engine (base this))).
Qed.

Lemma Simulation_fair (μ : board → nat) fuel this state :
  shuffle_permutes → decreasing μ → uct_above_floor →
  space_ok (base this) → sim_counts this ≤ INT_MAX →
  (μ state < fuel)%nat →
  ∃ out, Simulation fuel this state = Some out
    ∧ fair_answer (who (base this)) state (chosen out).
Proof.
  intros Hs Hd Hfloor Hok Hmax Hf. pose proof Hok as [Hw Hperm].
  pose proof (expanded_depth_one state (space (base (shuffled this)))) as Hd1.
  pose proof (expanded_counted state (space (base (shuffled this)))) as Hc0.
  pose proof (expanded_bounded μ fuel state (space (base (shuffled this))) Hd Hf) as Hb.
  fold (first_tree this state) in Hd1, Hc0, Hb.
  assert (Hsp : ∀ m, m ∈ space (base (shuffled this)) ↔
                  ∃ i, (i < size_x * size_y)%nat ∧ m = mkPlace i (who (base this))).
  { intros m. simpl. rewrite (Hs _ _), Hperm. apply elem_of_init_space. }
  rewrite Simulation_cases. unfold first_tree in *.
  remember (space (base (shuffled this))) as sp eqn:Esp.
  destruct (legal_children root_ptr sp state) as [|x xs] eqn:Ekids.
  - eexists. split; [done|]. intros i Hi.
    apply (legal_children_nil_inv _ _ _ Ekids). apply Hsp. eauto.
  - assert (Hfuel : (2 ≤ fuel)%nat).
    { assert (x ∈ legal_children root_ptr sp state)
        as Hx by (rewrite Ekids; left).
      apply legal_children_spec in Hx as (_ & _ & _ & _ & m & _ & _ & Hm).
      apply Hd in Hm. lia. }
    destruct (sim_loop_total μ fuel (shuffled this) Hs Hd Hfloor Hw Hfuel
                (Z.to_nat (sim_counts this)) (expanded state sp) 0 Hb Hd1 Hc0)
      as [[h2 d] Hloop]; [unfold INT_MAX in *; lia|].
    pose proof (sim_loop_same_shape _ _ _ _ _ _ _ Hloop) as Hshape.
    assert (Hd2 : depth_one h2) by (by eapply depth_one_same_shape).
    pose proof Hd2 as (r2 & Hr2 & _).
    assert (Hne2 : child r2 ≠ []).
    { destruct (same_shape_lookup_inv _ _ _ _ Hshape Hr2) as (r1 & Hr1 & _ & _ & _ & ->).
      unfold expanded in Hr1. simpl in Hr1. injection Hr1 as <-. simpl.
      by rewrite Ekids. }
    destruct (decision_member h2 r2 Hd2 Hr2 Hne2) as (m & d' & c & n & Hdec & Hc & Hn & ->).
    rewrite Hloop. simpl. rewrite Hdec. simpl.
    destruct (depth_one_child h2 r2 c Hd2 Hr2 Hc) as (Hcpos & _).
    destruct (same_shape_lookup_inv _ _ _ _ Hshape Hn) as (n1 & Hn1 & Hbn & Hmn & _).
    destruct c as [|c]; [lia|]. unfold expanded in Hn1. simpl in Hn1.
    apply list_elem_of_lookup_2, legal_children_spec in Hn1
      as (_ & _ & _ & _ & m & Hm & Hin & Hleg).
    eexists. split; [done|]. simpl. rewrite Hmn, Hm.
    apply Hsp in Hin as (i & Hi & ->). simpl. split; [done|]. split; [done|].
    by rewrite Hleg.
Qed.

Lemma Simulation_player fuel this state out :
  Simulation fuel this state = Some out → player out = shuffled this.
Proof.
  rewrite Simulation_cases. intros Hrun.
  destruct (legal_children _ _ state); [by injection Hrun as <-|].
  apply bind_Some in Hrun as ([h2 d] & _ & Hrun).
  by apply bind_Some in Hrun as ([m d'] & _ & [= <-]).
Qed.

(** Extra X11.  With any budget up to [INT_MAX], [MCTS_player::take_action]
    returns, and its answer is a legal placement of the player's colour, or
    the no-op when the player has no legal placement. *)
Theorem take_action_always_legal (μ : board → nat) fuel this state :
  shuffle_permutes → decreasing μ → uct_above_floor →
  space_ok (base this) → sim_counts this ≤ INT_MAX →
  (μ state < fuel)%nat →
  ∃ a, take_action fuel this state = Some a
    ∧ fair_answer (who (base this)) state a.
Proof.
  intros Hs Hd Hfloor Hok Hmax Hf.
  destruct (Simulation_fair μ fuel this state Hs Hd Hfloor Hok Hmax Hf)
    as (out & Hout & Hfair).
  exists (chosen out). split; [|done]. unfold take_action. by rewrite Hout.
Qed.


(** Extra X12.  With a budget of zero or less the loop of [Simulation] is
    skipped: the call answers what [random_player::take_action] answers, the
    first legal placement of the shuffled [space], and when there is one the
    only division is that of the first child's counters, by zero. *)
Theorem take_action_without_budget fuel this state :
  sim_counts this ≤ 0 →
  ∃ out,
    Simulation fuel this state = Some out
    ∧ take_action fuel this state = Some (rp_take_action (base this) state).1
    ∧ chosen out = (rp_take_action (base this) state).1
    ∧ base (player out) = (rp_take_action (base this) state).2
    ∧ tree out = first_tree this state
    ∧ divisors out = match chosen out with Some _ => [0] | None => [] end.
Proof.
  intros Hzero.
  assert (Hsim : ∃ out, Simulation fuel this state = Some out
            ∧ chosen out = (rp_take_action (base this) state).1
            ∧ base (player out) = (rp_take_action (base this) state).2
            ∧ tree out = first_tree this state
            ∧ divisors out = match chosen out with Some _ => [0] | None => [] end).
  { rewrite Simulation_cases, <- shuffled_first_legal.
    rewrite (legal_children_head root_ptr).
    replace (Z.to_nat (sim_counts this)) with 0%nat by lia.
    destruct (legal_children root_ptr (space (base (shuffled this))) state)
      as [|x xs] eqn:Ekids.
    - eexists. split; [done|]. simpl. split; [done|].
      split; [apply shuffled_base|]. split; [|done].
      unfold first_tree, expanded. by rewrite Ekids.
    - assert (Hx : x ∈ legal_children root_ptr (space (base (shuffled this))) state)
        by (rewrite Ekids; left).
      apply legal_children_spec in Hx as (Hv & _ & _ & _ & m & Hm & _).
      simpl. unfold decision, first_tree, expanded. rewrite Ekids. simpl.
      rewrite Hv. simpl. rewrite decision_loop_unvisited.
      + simpl. eexists. split; [done|]. simpl. rewrite Hm.
        split; [done|]. split; [apply shuffled_base | done].
      + intros c Hc. apply elem_of_seq in Hc. simpl in Hc.
        destruct c as [|c]; [lia|]. simpl.
        assert (c < length (x :: xs))%nat as Hlt by (simpl; lia).
        apply lookup_lt_is_Some in Hlt as [n Hn].
        exists n. split; [done|].
        assert (Hin : n ∈ legal_children root_ptr (space (base (shuffled this))) state).
        { rewrite Ekids. by eapply list_elem_of_lookup_2. }
        by apply legal_children_spec in Hin as (? & _). }
  destruct Hsim as (out & Hout & Hch & Hrest). exists out.
  split; [done|]. split; [|done]. unfold take_action. rewrite Hout. simpl. by rewrite Hch.
Qed.

Lemma oneSim_loop_length (μ : board → nat) :
  decreasing μ →
  ∀ fuel me op t st t' played,
    oneSim_loop fuel me op t st = Some (t', played) →
    (length played ≤ μ st)%nat
    ∧ t' = xorb t (Nat.odd (length played))
    ∧ is_Some (play played st).
Proof.
  intros Hd. induction fuel as [|fuel IH]; intros me op t st t' played; simpl; [done|].
  destruct (if t
            then let '(m, p) := rp_take_action me st in (m, p, op)
            else let '(m, p) := rp_take_action op st in (m, me, p))
    as [[mv me'] op'].
  destruct (action_apply mv st) as [st'|] eqn:E.
  - intros Hrun. apply bind_Some in Hrun as ([t1 pl] & Hrun & [= <- <-]).
    apply IH in Hrun as (Hlen & -> & Hplay).
    assert (μ st' < μ st)%nat.
    { destruct mv as [m|]; simpl in E; [by eapply Hd | done]. }
    simpl. rewrite E. simpl. split; [lia|]. split; [|done].
    rewrite Nat.odd_succ, <- Nat.negb_odd. by destruct t, (Nat.odd (length pl)).
  - intros [= <- <-]. simpl. split; [lia|]. split; [by rewrite xorb_false_r | done].
Qed.

(** Extra X14.  A rollout plays at most as many moves as the board of the
    node allows, every move is legal in turn, and the result is decided by
    the parity of their number. *)
Theorem oneSim_run_length (μ : board → nat) fuel this node r played :
  decreasing μ →
  oneSim_run fuel this node = Some (r, played) →
  (length played ≤ μ (b node))%nat
  ∧ r = Nat.even (length played)
  ∧ is_Some (play played (b node)).
Proof.
  intros Hd Hrun. unfold oneSim_run in Hrun.
  apply bind_Some in Hrun as ([me op] & _ & Hrun).
  apply bind_Some in Hrun as ([t pl] & Hloop & [= <- <-]).
  apply (oneSim_loop_length μ Hd) in Hloop as (Hlen & -> & Hplay).
  split; [done|]. split; [|done]. simpl. by rewrite Nat.negb_odd.
Qed.

End CallFacts.


Section Statistics.
Context {BD : Board} {RNG : Rng} {FA : FloatArith}.

Lemma foldr_update (g : Node → Z) (f : Node → Node) :
  ∀ (l l' : list Node) c xc,
    length l' = length l → l !! c = Some xc →
    (∀ i x, l !! i = Some x →
       l' !! i = Some (if bool_decide (i = c) then f x else x)) →
    foldr (λ n s, g n + s) 0 l' = foldr (λ n s, g n + s) 0 l + g (f xc) - g xc.
Proof.
  induction l as [|y l IH]; intros l' c xc Hlen Hc Hlook; [done|].
  destruct l' as [|y' l']; [done|]. simpl in Hlen.
  pose proof (Hlook 0%nat y eq_refl) as H0. simpl in H0. injection H0 as ->.
  assert (Htl : ∀ i x, l !! i = Some x →
            l' !! i = Some (if bool_decide (S i = c) then f x else x)).
  { intros i x Hx. exact (Hlook (S i) x Hx). }
  destruct c as [|c].
  - simpl in Hc. injection Hc as ->.
    assert (l' = l) as ->.
    { apply list_eq. intros i. destruct (l !! i) as [x|] eqn:Hx.
      - by rewrite (Htl i x Hx).
      - apply lookup_ge_None. apply lookup_ge_None in Hx. lia. }
    simpl. lia.
  - simpl in Hc. rewrite bool_decide_eq_false_2 by lia. simpl.
    rewrite (IH l' c xc); [lia | lia | done |].
    intros i x Hx. rewrite (Htl i x Hx).
    by rewrite (bool_decide_ext (S i = S c) (i = c)) by lia.
Qed.

Lemma foldr_zero (g : Node → Z) (l : list Node) :
  Forall (λ n, g n = 0) l → foldr (λ n s, g n + s) 0 l = 0.
Proof. induction 1 as [|y ys Hy _ IHy]; simpl; [done | lia]. Qed.

Lemma iteration_sums fuel this h k h' d r :
  depth_one h → counted h k → k < INT_MAX →
  h !! root_ptr = Some r → child r ≠ [] →
  visit r = children_sum visit h → win r = children_sum win h →
  iteration fuel this root_ptr h = Some (h', d) →
  ∃ r', h' !! root_ptr = Some r'
    ∧ visit r' = children_sum visit h' ∧ win r' = children_sum win h'.
Proof.
  intros Hd1 Hcnt Hmax Hr Hne Hv Hw Hit.
  destruct (iteration_step fuel this h k h' d Hd1 Hcnt Hmax Hit)
    as (c & w & _ & _ & _ & [Hlen _] & Hlook & r0 & Hr0 & Hwhere & _).
  assert (r0 = r) as -> by congruence.
  destruct Hwhere as [[Hnil _] | Hc]; [done|].
  destruct (depth_one_child h r c Hd1 Hr Hc) as (Hpos & nc & Hnc & _).
  exists (set_counts r (visit r + 1) (win r + w)).
  split.
  { rewrite (Hlook _ _ Hr). by rewrite bool_decide_eq_true_2 by tauto. }
  destruct c as [|c]; [lia|].
  assert (Htail : ∀ i x, tail h !! i = Some x →
            tail h' !! i = Some (if bool_decide (i = c)
                                 then set_counts x (visit x + 1) (win x + w) else x)).
  { intros i x. rewrite !lookup_tail. intros Hx. rewrite (Hlook _ _ Hx).
    by rewrite (bool_decide_ext (S i = S c ∨ S i = root_ptr) (i = c))
      by (unfold root_ptr; lia). }
  assert (Hlen' : length (tail h') = length (tail h)) by (destruct h, h'; simpl in *; lia).
  assert (Hc' : tail h !! c = Some nc) by (by rewrite lookup_tail).
  unfold children_sum. simpl.
  rewrite (foldr_update visit _ _ _ c nc Hlen' Hc' Htail).
  rewrite (foldr_update win _ _ _ c nc Hlen' Hc' Htail).
  unfold children_sum in Hv, Hw. simpl. lia.
Qed.

Lemma sim_loop_sums fuel this :
  ∀ k h j r hk d,
    depth_one h → counted h j → j + Z.of_nat k ≤ INT_MAX →
    h !! root_ptr = Some r → child r ≠ [] →
    visit r = children_sum visit h → win r = children_sum win h →
    sim_loop fuel this root_ptr k h = Some (hk, d) →
    ∃ r', hk !! root_ptr = Some r' ∧ visit r' = j + Z.of_nat k
      ∧ visit r' = children_sum visit hk ∧ win r' = children_sum win hk.
Proof.
  induction k as [|k IH]; intros h j r hk d Hd1 Hcnt Hmax Hr Hne Hv Hw; simpl.
  - intros [= <- <-]. exists r. destruct Hcnt as [(r0 & Hr0 & Hj) _].
    assert (r0 = r) as -> by congruence. repeat split; auto. lia.
  - intros Hrun. apply bind_Some in Hrun as ([h1 d1] & Hit & Hrun).
    apply bind_Some in Hrun as ([h2 d2] & Hrest & [= <- <-]).
    destruct (iteration_sums fuel this h j h1 d1 r Hd1 Hcnt ltac:(lia) Hr Hne Hv Hw Hit)
      as (r1 & Hr1 & Hv1 & Hw1).
    destruct (iteration_step fuel this h j h1 d1 Hd1 Hcnt ltac:(lia) Hit)
      as (_ & _ & _ & _ & _ & Hshape & _).
    destruct (iteration_counted fuel this h j h1 d1 Hd1 Hcnt ltac:(lia) Hit)
      as (Hcnt1 & _).
    destruct (same_shape_lookup_inv _ _ _ _ Hshape Hr1) as (r0 & Hr0 & _ & _ & _ & Hch).
    assert (r0 = r) as -> by congruence.
    destruct (IH h1 (j + 1) r1 h2 d2) as (r' & ? & ? & ? & ?);
      [by eapply depth_one_same_shape | done | lia | done | congruence | done..|].
    exists r'. repeat split; auto. lia.
Qed.

(** Extra X15.  After any number of passes on a root with children, the
    root's [visit] is the number of passes and the sum of its children's
    [visit]s, and its [win] is the sum of their [win]s. *)
Theorem root_counts_are_sums fuel this state sp k hk d :
  legal_children root_ptr sp state ≠ [] →
  Z.of_nat k ≤ INT_MAX →
  sim_loop fuel this root_ptr k (expanded state sp) = Some (hk, d) →
  ∃ r, hk !! root_ptr = Some r
    ∧ visit r = Z.of_nat k
    ∧ visit r = children_sum visit hk
    ∧ win r = children_sum win hk.
Proof.
  intros Hkids Hk Hloop.
  destruct (sim_loop_sums fuel this k (expanded state sp) 0 _ hk d
              (expanded_depth_one state sp) (expanded_counted state sp)
              ltac:(lia) eq_refl) as (r & ? & ? & ? & ?);
    [| | |done|eauto].
  - simpl. by destruct (legal_children root_ptr sp state).
  - unfold children_sum, expanded. simpl. symmetry. apply foldr_zero.
    apply Forall_forall. intros n Hn. by apply legal_children_spec in Hn as (? & _).
  - unfold children_sum, expanded. simpl. symmetry. apply foldr_zero.
    apply Forall_forall. intros n Hn. by apply legal_children_spec in Hn as (_ & ? & _).
Qed.

Lemma iteration_round_robin fuel this h j h' d :
  depth_one h → counted h (Z.of_nat j) → Z.of_nat j < INT_MAX →
  round_robin j h → (j < length h - 1)%nat →
  iteration fuel this root_ptr h = Some (h', d) →
  round_robin (S j) h'.
Proof.
  intros Hd1 Hcnt Hmax Hrr Hj Hit.
  destruct (iteration_step fuel this h _ h' d Hd1 Hcnt Hmax Hit)
    as (c & w & _ & Hsel & _ & Hshape & Hlook & _).
  destruct Hd1 as (r & Hr & _ & Hch & Hkids).
  assert (Hfirst : first_unvisited h (child r) (S j)).
  { assert (HS : (S j < length h)%nat) by lia.
    destruct (lookup_lt_is_Some_2 h (S j) HS) as [x Hx].
    exists j, x. rewrite Hch. split; [by rewrite lookup_seq_lt by lia|].
    split; [done|]. split.
    - rewrite (Hrr (S j) x ltac:(lia) Hx).
      by rewrite (proj2 (Nat.leb_gt _ _)) by lia.
    - intros i c' n' Hi Hc' Hn'. apply lookup_seq in Hc' as [-> _].
      rewrite (Hrr (1 + i)%nat n' ltac:(lia) Hn').
      by rewrite (proj2 (Nat.leb_le _ _)) by lia. }
  assert (Hall : ∀ c', c' ∈ child r → is_Some (h !! c')).
  { intros c' Hc'. rewrite Hch in Hc'. apply elem_of_seq in Hc'.
    apply lookup_lt_is_Some_2. lia. }
  assert (c = S j) as ->.
  { destruct fuel as [|fuel]; [done|]. simpl in Hsel. rewrite Hr in Hsel. simpl in Hsel.
    destruct (child r) as [|c1 rest] eqn:E.
    { destruct Hfirst as (i & ? & Hi & _). by rewrite lookup_nil in Hi. }
    destruct (selection_loop_unvisited h (visit r) (c1 :: rest) (S j) Hall Hfirst
                None f_m99999) as [d0 Hd0].
    rewrite Hd0 in Hsel. simpl in Hsel. congruence. }
  intros p x Hp Hx.
  destruct (same_shape_lookup_inv _ _ _ _ Hshape Hx) as (x0 & Hx0 & _).
  rewrite (Hlook p x0 Hx0) in Hx. injection Hx as <-.
  pose proof (Hrr p x0 Hp Hx0) as Hv.
  destruct (decide (p = S j)) as [->|Hne].
  - rewrite bool_decide_eq_true_2 by tauto. simpl. rewrite Hv.
    rewrite (proj2 (Nat.leb_gt _ _)) by lia.
    by rewrite (proj2 (Nat.leb_le _ _)) by lia.
  - rewrite bool_decide_eq_false_2 by (unfold root_ptr; lia). rewrite Hv.
    destruct (Nat.leb_spec p j), (Nat.leb_spec p (S j)); try done; lia.
Qed.

Lemma sim_loop_round_robin fuel this :
  ∀ k h j hk d,
    depth_one h → counted h (Z.of_nat j) → Z.of_nat (j + k) ≤ INT_MAX →
    round_robin j h → (j + k ≤ length h - 1)%nat →
    sim_loop fuel this root_ptr k h = Some (hk, d) →
    round_robin (j + k) hk.
Proof.
  induction k as [|k IH]; intros h j hk d Hd1 Hcnt Hmax Hrr Hj; simpl.
  - intros [= <- <-]. by rewrite Nat.add_0_r.
  - intros Hrun. apply bind_Some in Hrun as ([h1 d1] & Hit & Hrun).
    apply bind_Some in Hrun as ([h2 d2] & Hrest & [= <- <-]).
    destruct (iteration_step fuel this h _ h1 d1 Hd1 Hcnt ltac:(lia) Hit)
      as (_ & _ & _ & _ & _ & Hshape & _).
    destruct (iteration_counted fuel this h _ h1 d1 Hd1 Hcnt ltac:(lia) Hit)
      as (Hcnt1 & _).
    replace (j + S k)%nat with (S j + k)%nat by lia.
    apply (IH h1 (S j) h2 d2).
    + by eapply depth_one_same_shape.
    + by replace (Z.of_nat (S j)) with (Z.of_nat j + 1) by lia.
    + lia.
    + apply (iteration_round_robin fuel this h j h1 d1); [done | done | lia | done | lia | done].
    + destruct Hshape as [-> _]. lia.
    + done.
Qed.

Lemma sim_loop_add fuel this root :
  ∀ a c h h' d,
    sim_loop fuel this root (a + c) h = Some (h', d) →
    ∃ h1 d1 d2, sim_loop fuel this root a h = Some (h1, d1)
      ∧ sim_loop fuel this root c h1 = Some (h', d2) ∧ d = d1 ++ d2.
Proof.
  induction a as [|a IH]; intros c h h' d; simpl.
  - intros Hrun. by exists h, [], d.
  - intros Hrun. apply bind_Some in Hrun as ([h1 d1] & Hit & Hrun).
    apply bind_Some in Hrun as ([h2 d2] & Hrest & [= <- <-]).
    destruct (IH c h1 h2 d2 Hrest) as (h3 & d3 & d4 & Ha & Hc & ->).
    exists h3, (d1 ++ d3), d4. rewrite Hit. simpl. rewrite Ha. simpl.
    by rewrite app_assoc.
Qed.

(** Extra X16.  The first passes visit the children of the root in order,
    once each: after [k] passes, [k] up to the number of children, the first
    [k] children have [visit = 1] and the others [visit = 0].  From then on
    every child has been visited. *)
Theorem first_passes_visit_in_order fuel this state sp k hk d :
  Z.of_nat k ≤ INT_MAX →
  sim_loop fuel this root_ptr k (expanded state sp) = Some (hk, d) →
  ((k ≤ length (legal_children root_ptr sp state))%nat → round_robin k hk)
  ∧ ((length (legal_children root_ptr sp state) ≤ k)%nat →
     ∀ p x, (0 < p)%nat → hk !! p = Some x → 1 ≤ visit x).
Proof.
  intros Hk Hrun. set (kids := length (legal_children root_ptr sp state)).
  assert (Hstart : round_robin 0 (expanded state sp)).
  { intros p x Hp Hx. destruct p as [|p]; [lia|]. simpl in Hx.
    apply list_elem_of_lookup_2, legal_children_spec in Hx as (-> & _). done. }
  assert (Hlen : (length (expanded state sp) - 1 = kids)%nat).
  { unfold expanded. simpl. lia. }
  split.
  - intros Hle.
    apply (sim_loop_round_robin fuel this k (expanded state sp) 0 hk d);
      [apply expanded_depth_one | apply expanded_counted | done | done | lia | done].
  - intros Hle p x Hp Hx.
    replace k with (kids + (k - kids))%nat in Hrun by lia.
    destruct (sim_loop_add _ _ _ _ _ _ _ _ Hrun) as (h1 & d1 & d2 & Ha & Hc & _).
    pose proof (sim_loop_round_robin fuel this kids (expanded state sp) 0 h1 d1
                  (expanded_depth_one state sp) (expanded_counted state sp)
                  ltac:(lia) Hstart ltac:(lia) Ha) as Hrr.
    destruct (sim_loop_inv fuel this kids _ 0 h1 d1 (expanded_depth_one state sp)
                (expanded_counted state sp) ltac:(lia) Ha) as (Hshape & _ & Hcnt1 & _).
    destruct (sim_loop_inv fuel this (k - kids) h1 _ hk d2
                (depth_one_same_shape _ _ Hshape (expanded_depth_one state sp))
                Hcnt1 ltac:(lia) Hc) as (Hshape2 & Hgrown & _).
    destruct (same_shape_lookup_inv _ _ _ _ Hshape2 Hx) as (x1 & Hx1 & _).
    pose proof (Hgrown p x1 x Hx1 Hx) as Hge.
    pose proof (Hrr p x1 Hp Hx1) as Hv. simpl in Hv.
    assert (p < length h1)%nat by (by eapply lookup_lt_Some).
    destruct Hshape as [Hl1 _]. rewrite Hl1 in *.
    rewrite (proj2 (Nat.leb_le _ _)) in Hv by lia. lia.
Qed.

End Statistics.


Section FindFacts.

Lemma index_first (p s : string) i :
  p ≠ ""%string →
  String.substring i (String.length p) s = p →
  (∀ q, (q < i)%nat → String.substring q (String.length p) s ≠ p) →
  String.index 0 p s = Some i.
Proof.
  intros Hp Hat Hbefore. destruct (String.index 0 p s) as [m|] eqn:E.
  - f_equal. destruct (Nat.lt_trichotomy m i) as [Hlt | [-> | Hgt]]; [|done|].
    + exfalso. apply (Hbefore m Hlt). by eapply String.index_correct1.
    + exfalso. by apply (String.index_correct2 _ _ _ _ E i); [lia | done |].
  - exfalso. by apply (String.index_correct3 0 i _ _ E Hp); [lia|].
Qed.

Lemma index_absent (p s : string) :
  (∀ q, String.substring q (String.length p) s ≠ p) → String.index 0 p s = None.
Proof.
  intros Hno. destruct (String.index 0 p s) as [m|] eqn:E; [|done].
  exfalso. apply (Hno m). by eapply String.index_correct1.
Qed.

Lemma substring_skip k s n :
  String.substring (String.length k) n (k +:+ s) = String.substring 0 n s.
Proof.
  induction k as [|a k IH]; [done|].
  unfold String.append; fold String.append. simpl. exact IH.
Qed.

Lemma prefix_char_cons c a s :
  String.prefix (String c "") (String a s) = if ascii_dec c a then true else false.
Proof.
  destruct (ascii_dec c a) as [<- | Hne].
  - apply String.prefix_correct. simpl. by destruct s.
  - destruct (String.prefix (String c "") (String a s)) eqn:E; [|done].
    apply String.prefix_correct in E. destruct s; simpl in E; congruence.
Qed.

Lemma index_char_cons c a s :
  String.index 0 (String c "") (String a s)
  = if ascii_dec c a then Some 0%nat
    else match String.index 0 (String c "") s with
         | Some n => Some (S n)
         | None => None
         end.
Proof.
  change (String.index 0 (String c "") (String a s))
    with (if String.prefix (String c "") (String a s) then Some 0%nat
          else match String.index 0 (String c "") s with
               | Some n => Some (S n)
               | None => None
               end).
  rewrite prefix_char_cons. by destruct (ascii_dec c a).
Qed.

Lemma index_char_append c k v :
  String.index 0 (String c "") k = None →
  String.index 0 (String c "") (k +:+ String c v) = Some (String.length k).
Proof.
  induction k as [|a k IH].
  - intros _. change ("" +:+ String c v)%string with (String c v).
    rewrite index_char_cons. by destruct (ascii_dec c c).
  - change (String a k +:+ String c v)%string with (String a (k +:+ String c v)).
    rewrite !index_char_cons. destruct (ascii_dec c a) as [Heq | Hne]; [done|].
    destruct (String.index 0 (String c "") k) eqn:E; [done|]. intros _. by rewrite IH.
Qed.

Lemma search_option_found pre v tail :
  (∀ q, (q < String.length pre)%nat →
     String.substring q 7 (pre +:+ "search=" +:+ v +:+ tail) ≠ "search="%string) →
  String.index 0 " " v = None →
  tail = ""%string ∨ (∃ rest, tail = String " " rest) →
  Player.search_option (pre +:+ "search=" +:+ v +:+ tail) = Some v.
Proof.
  intros Hbefore Hv Htail. unfold Player.search_option.
  rewrite (index_first "search=" _ (String.length pre)); [|done| |exact Hbefore].
  2:{ rewrite substring_skip.
      apply (substring_append_l "search=" (v +:+ tail)). }
  simpl.
  assert (Hrest : String.substring (String.length pre + 7)
            (String.length (pre +:+ "search=" +:+ v +:+ tail) - (String.length pre + 7))
            (pre +:+ "search=" +:+ v +:+ tail) = (v +:+ tail)%string).
  { replace (pre +:+ "search=" +:+ v +:+ tail)%string
      with ((pre +:+ "search=") +:+ (v +:+ tail))%string
      by (by rewrite append_assoc').
    replace (String.length pre + 7)%nat with (String.length (pre +:+ "search="))
      by (by rewrite length_append').
    rewrite (length_append' (pre +:+ "search=")), Nat.add_comm, Nat.add_sub.
    apply substring_append_r. }
  rewrite Hrest. destruct Htail as [-> | [rest ->]].
  - rewrite append_empty_r, Hv. done.
  - rewrite (index_char_append " " v rest Hv). by rewrite substring_append_l.
Qed.

End FindFacts.

Section PlayerFacts.
Context {BD : Board} {RNG : Rng} {FA : FloatArith}.

(** Extra X17.  When the constructor of [random_player] accepts the
    arguments, that of [player] does.  If the text [search=] occurs nowhere
    in them, [myAgent] is a [random_player] built from them.  If its first
    occurrence is followed by the value [v], which ends at the first space
    or at the end, [myAgent] is an [MCTS_player] with a budget of 100 when
    [v] is [MCTS]; for any other [v] it is left unassigned, and
    [take_action] then has no defined result. *)
Theorem player_new_dispatch args rp :
  random_player_new args = Some rp →
  ((∀ q, String.substring q 7 args ≠ "search="%string) →
     Player.new args = Some (Player.mk rp (Some (Player.Random rp))))
  ∧ (∀ pre v tail,
       args = (pre +:+ "search=" +:+ v +:+ tail)%string →
       (∀ q, (q < String.length pre)%nat →
          String.substring q 7 args ≠ "search="%string) →
       String.index 0 " " v = None →
       tail = ""%string ∨ (∃ rest, tail = String " " rest) →
       Player.new args
       = Some (Player.mk rp (if decide (v = "MCTS"%string)
                             then Some (Player.Mcts (mkMCTS rp 100))
                             else None))
       ∧ (v ≠ "MCTS"%string →
          ∀ fuel state, Player.take_action fuel (Player.mk rp None) state = None)).
Proof.
  intros Hrp. split.
  - intros Hno. unfold Player.new, Player.search_option.
    rewrite Hrp. simpl. by rewrite (index_absent "search=" args Hno).
  - intros pre v tail -> Hbefore Hv Htail. split; [|done].
    unfold Player.new, MCTS_player_new. rewrite Hrp. simpl.
    rewrite (search_option_found pre v tail Hbefore Hv Htail).
    by destruct (decide (v = "MCTS"%string)).
Qed.

(** Extra X18.  [player::take_action] with an assigned agent returns a legal
    placement of the player's colour, or the no-op when there is none, and
    leaves the agent fit for the next call. *)
Theorem player_take_action_ready (μ : board → nat) fuel pl state :
  shuffle_permutes → decreasing μ → uct_above_floor →
  Player.ready pl → (μ state < fuel)%nat →
  ∃ a pl',
    Player.take_action fuel pl state = Some (a, pl')
    ∧ fair_answer (who (Player.self pl)) state a
    ∧ Player.self pl' = Player.self pl
    ∧ Player.ready pl'.
Proof.
  intros Hs Hd Hfloor Hready Hfuel. unfold Player.ready, Player.take_action in *.
  destruct (Player.myAgent pl) as [[r | m]|]; [| |done]; simpl.
  - destruct Hready as [Hok Hw].
    pose proof (rp_take_action_fair r state Hs Hok) as Hfair.
    pose proof (rp_take_action_space_ok r state Hs Hok) as [Hok' Hw'].
    destruct (rp_take_action r state) as [a r']. simpl in *.
    exists a, (Player.mk (Player.self pl) (Some (Player.Random r'))).
    rewrite <- Hw. split; [done|]. split; [done|]. split; [done|]. simpl.
    split; [done|]. by rewrite Hw'.
  - destruct Hready as (Hok & Hw & Hn).
    destruct (Simulation_fair μ fuel m state Hs Hd Hfloor Hok) as (out & Hout & Hfair);
      [rewrite Hn; by vm_compute | done |].
    rewrite Hout. simpl.
    exists (chosen out), (Player.mk (Player.self pl) (Some (Player.Mcts (player out)))).
    rewrite <- Hw. split; [done|]. split; [done|]. split; [done|]. simpl.
    rewrite (Simulation_player _ _ _ _ Hout).
    split; [by apply shuffled_space_ok|]. done.
Qed.

End PlayerFacts.

(** ** The small instance meets the assumptions *)

Import Toy.

Module ToyFacts.

Lemma toy_shuffle_permutes : shuffle_permutes.
Proof.
  intros l e. simpl. unfold rotate.
  rewrite Permutation_app_comm. by rewrite take_drop.
Qed.

Lemma free_cells_insert bd i c :
  bd !! i = Some empty → c ≠ empty →
  (free_cells (<[i := c]> bd) < free_cells bd)%nat.
Proof.
  unfold free_cells. revert i. induction bd as [|x rest IH]; intros i; [done|].
  destruct i as [|i]; simpl.
  - intros [= ->] Hc. rewrite filter_cons_False by done.
    rewrite filter_cons_True by done. simpl. lia.
  - intros Hi Hc. specialize (IH i Hi Hc).
    rewrite !filter_cons. destruct (decide (x = empty)); simpl; lia.
Qed.

Lemma toy_decreasing : decreasing free_cells.
Proof.
  intros m bd bd'. simpl. unfold toy_place.
  destruct (decide (color m = empty)) as [|Hc]; [done|].
  destruct (position m <? length bd)%nat eqn:Hlt; simpl; [|done].
  apply Nat.ltb_lt in Hlt. apply lookup_lt_is_Some in Hlt as [x Hx].
  case_bool_decide as Hcell; simpl; [|done].
  destruct (bool_decide (cell bd (position m + 1) = opponent_of (color m))); [done|].
  destruct ((0 <? position m)%nat && _); [done|].
  intros [= <-]. apply free_cells_insert; [|done].
  unfold cell in Hcell. rewrite Hx in Hcell. simpl in Hcell. by subst.
Qed.

Lemma toy_fgt_lt (x y : Q) : fgt x y = true ↔ (y < x)%Q.
Proof.
  simpl. rewrite negb_true_iff. split.
  - intros Hle. apply Qnot_le_lt. intros Hxy.
    apply Qle_bool_iff in Hxy. congruence.
  - intros Hlt. destruct (Qle_bool x y) eqn:E; [|done].
    apply Qle_bool_iff in E. by apply Qlt_not_le in Hlt.
Qed.

Lemma toy_fgt_false (x y : Q) : fgt x y = false ↔ (x <= y)%Q.
Proof.
  simpl. rewrite negb_false_iff. apply Qle_bool_iff.
Qed.


Lemma toy_win_rate (w v : Z) : (win_rate w v == inject_Z w / inject_Z v)%Q.
Proof.
  unfold win_rate. simpl. rewrite !Qred_correct. reflexivity.
Qed.

Lemma toy_ratio_lt (w v w' v' : Z) :
  0 < v → 0 < v' →
  (inject_Z w' / inject_Z v' < inject_Z w / inject_Z v)%Q ↔ w' * v < w * v'.
Proof.
  intros Hv Hv'. destruct v as [|p|p]; try lia. destruct v' as [|p'|p']; try lia.
  unfold Qlt, Qdiv, Qmult, Qinv, inject_Z. simpl.
  rewrite !Pos.mul_1_l, !Z.mul_1_r. reflexivity.
Qed.

Lemma toy_ratio_exact bound : ratio_exact bound.
Proof.
  intros w v w' v' Hw Hv Hw' Hv'.
  destruct (w' * v <? w * v') eqn:E.
  - apply Z.ltb_lt in E. apply toy_fgt_lt. rewrite !toy_win_rate.
    apply toy_ratio_lt; lia.
  - apply Z.ltb_ge in E. apply toy_fgt_false. rewrite !toy_win_rate.
    apply Qnot_lt_le. intros Hlt.
    apply (proj1 (toy_ratio_lt w v w' v' ltac:(lia) ltac:(lia))) in Hlt. lia.
Qed.

Lemma toy_sqrt_nonneg q : (0 <= toy_sqrt q)%Q.
Proof.
  unfold toy_sqrt. apply Qle_shift_div_l; [reflexivity|].
  rewrite Qmult_0_l. change 0%Q with (inject_Z 0). rewrite <- Zle_Qle. apply Z.sqrt_nonneg.
Qed.

Lemma toy_uct_above_floor : uct_above_floor.
Proof.
  intros rv w v Hw Hv. apply toy_fgt_lt. unfold uct_value.
  simpl. rewrite Qred_correct.
  apply Qlt_le_trans with (y := 0%Q); [reflexivity|].
  apply Qle_trans with (y := (@win_rate toy_float w v + 0)%Q).
  - rewrite Qplus_0_r, toy_win_rate.
    apply Qle_shift_div_l; [change 0%Q with (inject_Z 0); rewrite <- Zlt_Qlt; lia|].
    rewrite Qmult_0_l. change 0%Q with (inject_Z 0). rewrite <- Zle_Qle. lia.
  - apply Qplus_le_r. apply toy_sqrt_nonneg.
Qed.

End ToyFacts.

Import ToyFacts.

(** ** The statements at the small instance *)

Lemma black_player_eq : black_player = Some toy_black.
Proof. vm_compute. reflexivity. Qed.

Lemma seeded_player_eq : seeded_player = Some toy_seeded.
Proof. vm_compute. reflexivity. Qed.

Lemma toy_black_space_ok : space_ok (base toy_black).
Proof. split; [by left | reflexivity]. Qed.

Lemma toy_black_budget : 1 ≤ sim_counts toy_black ≤ INT_MAX.
Proof. by vm_compute. Qed.

Lemma toy_black_can_move :
  ∃ i, (i < size_x * size_y)%nat
       ∧ is_Some (place_apply (mkPlace i (who (base toy_black))) empty_board).
Proof. exists 0%nat. split; [simpl; lia | by eexists]. Qed.

Lemma full_board_stuck : no_legal_move (who (base toy_black)) full_board.
Proof.
  intros i Hi. simpl in Hi.
  do 4 (destruct i as [|i]; [reflexivity|]). lia.
Qed.

Lemma take_action_returns_best_witness :
  ∃ out root c n m,
    Simulation 10 toy_black empty_board = Some out
    ∧ take_action 10 toy_black empty_board = Some (Some m)
    ∧ tree out !! root_ptr = Some root
    ∧ best_rate (tree out) root c
    ∧ tree out !! c = Some n ∧ move n = Some m
    ∧ is_Some (place_apply m empty_board).
Proof.
  apply (take_action_returns_best (BD:=toy_board) free_cells 10 toy_black empty_board
           toy_shuffle_permutes toy_decreasing toy_uct_above_floor
           (toy_ratio_exact _) toy_black_space_ok toy_black_budget).
  - vm_compute. lia.
  - exact toy_black_can_move.
Defined.

Lemma take_action_no_legal_move_witness :
  Simulation 0 toy_black full_board
  = Some (mkOutcome None (shuffled toy_black) (root_only full_board) [])
  ∧ take_action 0 toy_black full_board = Some None.
Proof.
  exact (take_action_no_legal_move 0 toy_black full_board
           toy_shuffle_permutes toy_black_space_ok full_board_stuck).
Defined.

Lemma divisions_by_positive_visits_witness :
  ∃ out, Simulation 10 toy_black empty_board = Some out
         ∧ divisors out ≠ [] ∧ Forall (λ x, 0 < x) (divisors out).
Proof.
  destruct (Simulation 10 toy_black empty_board) as [out|] eqn:E.
  - exists out. split; [done|]. split.
    + vm_compute in E. injection E as <-. done.
    + exact (divisions_by_positive_visits 10 toy_black empty_board out toy_black_budget E).
  - vm_compute in E. discriminate.
Defined.

Lemma oneSim_alternates_witness :
  ∃ played final,
    oneSim_run 10 toy_black (toy_node empty_board) = Some (Nat.even (length played), played)
    ∧ oneSim 10 toy_black (toy_node empty_board)
      = Some (bool_decide (mover black (length played) = white))
    ∧ (∀ i a, played !! i = Some a → ∃ pos, a = Some (mkPlace pos (mover black i)))
    ∧ play played empty_board = Some final
    ∧ no_legal_move (mover black (length played)) final.
Proof.
  apply (oneSim_alternates (BD:=toy_board) free_cells 10 toy_black (toy_node empty_board)
           toy_shuffle_permutes toy_decreasing).
  - by left.
  - vm_compute. lia.
Defined.

Lemma oneSim_ignores_seed_witness :
  engine (base toy_black) ≠ engine (base toy_seeded)
  ∧ oneSim_run 10 toy_black (toy_node empty_board)
    = oneSim_run 10 toy_seeded (toy_node empty_board)
  ∧ oneSim 10 toy_black (toy_node empty_board)
    = oneSim 10 toy_seeded (toy_node empty_board)
  ∧ ∃ h, toy_tree 7 = Some h
         ∧ ∀ p n, (0 < p)%nat → h !! p = Some n → win n = 0 ∨ win n = visit n.
Proof.
  split; [done|].
  destruct (oneSim_ignores_seed 10 toy_black toy_seeded
              (toy_node empty_board) (toy_node empty_board) eq_refl eq_refl)
    as (Hrun & Hres & _).
  split; [exact Hrun|]. split; [exact Hres|].
  unfold toy_tree, first_tree.
  destruct (sim_loop 10 (shuffled toy_black) root_ptr 7
              (expanded empty_board (space (base (shuffled toy_black)))))
    as [[h d]|] eqn:E; [|vm_compute in E; discriminate].
  exists h. split; [done|].
  destruct (oneSim_ignores_seed 10 (shuffled toy_black) toy_seeded
              (toy_node empty_board) (toy_node empty_board) eq_refl eq_refl)
    as (_ & _ & _ & Hall).
  apply (Hall empty_board (space (base (shuffled toy_black))) 7%nat h d);
    [vm_compute; discriminate | exact E].
Defined.

Lemma win_le_visit_always_witness :
  ∃ out, Simulation 10 toy_black empty_board = Some out
         ∧ Forall counts_ok (tree out).
Proof.
  destruct (Simulation 10 toy_black empty_board) as [out|] eqn:E.
  - exists out. split; [done|].
    destruct (win_le_visit_always 10 toy_black empty_board) as (_ & _ & _ & Hend).
    + by vm_compute.
    + by apply Hend.
  - vm_compute in E. discriminate.
Defined.

Lemma search_tree_depth_one_witness :
  ∃ h3, toy_tree 3 = Some h3 ∧ depth_one h3
        ∧ length h3 = length (first_tree toy_black empty_board).
Proof.
  unfold toy_tree.
  destruct (sim_loop 10 (shuffled toy_black) root_ptr 3 (first_tree toy_black empty_board))
    as [[h3 d]|] eqn:E.
  - exists h3. split; [done|].
    destruct (search_tree_depth_one 10 toy_black empty_board) as (_ & _ & Hk & _).
    + by vm_compute.
    + destruct (Hk 3%nat h3 d) as (Hdepth & Hlen & _);
        [vm_compute; discriminate | exact E | exact (conj Hdepth Hlen)].
  - vm_compute in E. discriminate.
Defined.

Lemma expansion_only_at_root_witness :
  ∃ out, Simulation 10 toy_black empty_board = Some out
         ∧ length (tree out) = 5%nat
         ∧ ∀ p n, (0 < p)%nat → tree out !! p = Some n → child n = [].
Proof.
  destruct (Simulation 10 toy_black empty_board) as [out|] eqn:E.
  - exists out. split; [done|].
    destruct (expansion_only_at_root 10 toy_black empty_board) as [_ Hend].
    destruct (Hend out E) as (_ & Hlen & Hkids). split; [|done].
    rewrite Hlen. by vm_compute.
  - vm_compute in E. discriminate.
Defined.

Lemma backPropagation_counts_witness :
  (∃ h' r nr,
     backPropagation 5 (first_tree toy_black empty_board) (Some 3%nat) 1 = Some h'
     ∧ head (ancestors 5 (first_tree toy_black empty_board) (Some 3%nat)) = Some 3%nat
     ∧ last (ancestors 5 (first_tree toy_black empty_board) (Some 3%nat)) = Some r
     ∧ first_tree toy_black empty_board !! r = Some nr ∧ parent nr = None
     ∧ ∀ q n, first_tree toy_black empty_board !! q = Some n →
         h' !! q = Some (if bool_decide (q ∈ ancestors 5 (first_tree toy_black empty_board) (Some 3%nat))
                         then set_counts n (visit n + 1) (win n + 1) else n))
  ∧ (∃ hK d rK,
       sim_loop 10 (shuffled toy_black) root_ptr (Z.to_nat 7)
         (first_tree toy_black empty_board) = Some (hK, d)
       ∧ hK !! root_ptr = Some rK ∧ visit rK = 7)
  ∧ (∃ hK d c nc won h' d',
       sim_loop 10 (shuffled toy_black) root_ptr (Z.to_nat 2)
         (first_tree toy_black empty_board) = Some (hK, d)
       ∧ selection 10 hK (Some root_ptr) = Some (c, d')
       ∧ hK !! c = Some nc
       ∧ oneSim 10 (shuffled toy_black) nc = Some won
       ∧ iteration 10 (shuffled toy_black) root_ptr hK = Some (h', d')
       ∧ head (ancestors 10 hK (Some c)) = Some c
       ∧ last (ancestors 10 hK (Some c)) = Some root_ptr
       ∧ ∀ q n, hK !! q = Some n →
           h' !! q = Some (if bool_decide (q ∈ ancestors 10 hK (Some c))
                           then set_counts n (visit n + 1)
                                  (win n + (if won : bool then 1 else 0))
                           else n)).
Proof.
  destruct (backPropagation_counts (BD:=toy_board) (RNG:=toy_rng) (FA:=toy_float) free_cells)
    as (Hwalk & Hsum & Hpass).
  split; [|split].
  - apply Hwalk.
    + intros p n q Hn Hq.
      do 5 (destruct p as [|p]; [vm_compute in Hn; injection Hn as <-;
                                 vm_compute in Hq; try discriminate;
                                 injection Hq as <-; lia|]).
      vm_compute in Hn. discriminate.
    + lia.
    + vm_compute. lia.
    + by right.
    + intros q n Hn.
      do 5 (destruct q as [|q]; [vm_compute in Hn; injection Hn as <-;
                                 by vm_compute|]).
      vm_compute in Hn. discriminate.
  - apply Hsum.
    + exact toy_shuffle_permutes.
    + exact toy_decreasing.
    + exact toy_uct_above_floor.
    + by left.
    + vm_compute. lia.
    + by vm_compute.
  - apply Hpass.
    + exact toy_shuffle_permutes.
    + exact toy_decreasing.
    + exact toy_uct_above_floor.
    + by left.
    + vm_compute. lia.
    + by vm_compute.
Defined.


(** After one pass node 1 was visited and node 2 was not: [selection]
    returns node 2.  On its way the loop computed the score of node 1 (two
    divisions by its visit count); the result does not depend on it. *)
Example selection_after_one_pass :
  selection 10 toy_tree_1 (Some root_ptr) = Some (2%nat, [1; 1]).
Proof. vm_compute. reflexivity. Qed.


(** Against claim C1 as stated: the first pass selects node 1, which has no
    children yet although both colours can still move on its board; after
    that pass, and after all passes of the call, node 1 is still
    childless. *)
Lemma expand_on_demand_counterexample :
  ∃ h' out,
    selection 10 (first_tree toy_black empty_board) (Some root_ptr) = Some (1%nat, [])
    ∧ child <$> first_tree toy_black empty_board !! 1%nat = Some []
    ∧ b <$> first_tree toy_black empty_board !! 1%nat = Some [black; empty; empty; empty]
    ∧ is_Some (first_legal (init_space black) [black; empty; empty; empty])
    ∧ is_Some (first_legal (init_space white) [black; empty; empty; empty])
    ∧ iteration 10 (shuffled toy_black) root_ptr (first_tree toy_black empty_board)
      = Some (h', [])
    ∧ length h' = length (first_tree toy_black empty_board)
    ∧ child <$> h' !! 1%nat = Some []
    ∧ Simulation 10 toy_black empty_board = Some out
    ∧ visit <$> tree out !! 1%nat = Some 4
    ∧ child <$> tree out !! 1%nat = Some [].
Proof.
  destruct (iteration 10 (shuffled toy_black) root_ptr (first_tree toy_black empty_board))
    as [[h' d]|] eqn:Eit; [|vm_compute in Eit; discriminate].
  destruct (Simulation 10 toy_black empty_board) as [out|] eqn:Esim;
    [|vm_compute in Esim; discriminate].
  exists h', out.
  vm_compute in Eit. injection Eit as <- <-.
  vm_compute in Esim. injection Esim as <-.
  repeat split; try (vm_compute; reflexivity); by eexists.
Qed.


(** ** The rest of [agent.h] at the small instance *)

Lemma agent_meta_override_witness :
  Config.agent_meta ("name=me role=black" +:+ " " +:+ "role" +:+ "=" +:+ "white")
  = <["role"%string := "white"%string]> (Config.agent_meta "name=me role=black").
Proof.
  apply (agent_meta_override "name=me role=black" "role" "white"); reflexivity.
Defined.

Lemma agent_meta_blank_free_witness :
  Config.agent_meta "name=me role=black" !! "role"%string = Some "black"%string
  ∧ blank_free "role" = true ∧ blank_free "black" = true.
Proof.
  assert (H : Config.agent_meta "name=me role=black" !! "role"%string
              = Some "black"%string) by (vm_compute; reflexivity).
  split; [exact H|].
  exact (agent_meta_blank_free "name=me role=black" "role" "black" H).
Defined.

Lemma notify_property_witness :
  Agent.property (Agent.notify ("role" +:+ "=" +:+ "white") default_meta) "role"
  = Some "white"%string
  ∧ (∀ k', k' ≠ "role"%string →
       Agent.property (Agent.notify ("role" +:+ "=" +:+ "white") default_meta) k'
       = Agent.property default_meta k')
  ∧ Agent.property (Agent.notify "role" default_meta) "role" = Some "role"%string.
Proof.
  apply (notify_property default_meta "role" "white"). reflexivity.
Defined.

Lemma random_player_new_blank_witness :
  random_player_new (BD:=toy_board) (RNG:=toy_rng) "" = None
  ∧ MCTS_player_new (BD:=toy_board) (RNG:=toy_rng) "" = None.
Proof.
  apply (random_player_new_blank (BD:=toy_board) (RNG:=toy_rng) ""). reflexivity.
Defined.

Lemma rp_take_action_contract_witness :
  fair_answer (who (base toy_black)) empty_board
    (rp_take_action (base toy_black) empty_board).1
  ∧ space_ok (rp_take_action (base toy_black) empty_board).2
  ∧ who (rp_take_action (base toy_black) empty_board).2 = who (base toy_black)
  ∧ meta (rp_take_action (base toy_black) empty_board).2 = meta (base toy_black)
  ∧ length (space (rp_take_action (base toy_black) empty_board).2)
    = (size_x * size_y)%nat
  ∧ NoDup (space (rp_take_action (base toy_black) empty_board).2).
Proof.
  exact (rp_take_action_contract (BD:=toy_board) (base toy_black) empty_board
           toy_shuffle_permutes toy_black_space_ok).
Defined.

Lemma expansion_any_node_witness :
  ∃ added,
    added = legal_children root_ptr (space (base (shuffled toy_black))) empty_board
    ∧ expansion toy_black root_ptr (root_only empty_board)
      = Some (shuffled toy_black,
              <[root_ptr := with_children (toy_node empty_board) (seq 1 (length added))]>
                (root_only empty_board ++ added))
    ∧ (∀ x, x ∈ added → visit x = 0 ∧ win x = 0 ∧ parent x = Some root_ptr
            ∧ child x = []
            ∧ ∃ m, move x = Some m ∧ place_apply m empty_board = Some (b x))
    ∧ (parents_older (root_only empty_board) →
       parents_older
         (<[root_ptr := with_children (toy_node empty_board) (seq 1 (length added))]>
            (root_only empty_board ++ added))).
Proof.
  exact (expansion_any_node (BD:=toy_board) toy_black root_ptr (root_only empty_board)
           (toy_node empty_board) eq_refl).
Defined.


Lemma take_action_always_legal_witness :
  ∃ a, take_action 10 toy_black empty_board = Some a
       ∧ fair_answer (who (base toy_black)) empty_board a.
Proof.
  apply (take_action_always_legal (BD:=toy_board) free_cells 10 toy_black empty_board
           toy_shuffle_permutes toy_decreasing toy_uct_above_floor toy_black_space_ok).
  - by vm_compute.
  - vm_compute. lia.
Defined.

Lemma take_action_without_budget_witness :
  ∃ out,
    Simulation 10 toy_idle empty_board = Some out
    ∧ take_action 10 toy_idle empty_board
      = Some (rp_take_action (base toy_idle) empty_board).1
    ∧ chosen out = (rp_take_action (base toy_idle) empty_board).1
    ∧ base (player out) = (rp_take_action (base toy_idle) empty_board).2
    ∧ tree out = first_tree toy_idle empty_board
    ∧ divisors out = match chosen out with Some _ => [0] | None => [] end.
Proof.
  apply (take_action_without_budget (BD:=toy_board) 10 toy_idle empty_board).
  by vm_compute.
Defined.

Lemma root_counts_are_sums_witness :
  ∃ hk r, toy_tree 4 = Some hk
    ∧ hk !! root_ptr = Some r
    ∧ visit r = 4
    ∧ visit r = children_sum visit hk
    ∧ win r = children_sum win hk.
Proof.
  destruct (sim_loop 10 (shuffled toy_black) root_ptr 4
              (expanded empty_board (space (base (shuffled toy_black)))))
    as [[hk d]|] eqn:E.
  - destruct (root_counts_are_sums (BD:=toy_board) 10 (shuffled toy_black) empty_board
                (space (base (shuffled toy_black))) 4 hk d) as (r & Hr & Hv & Hsum);
      [by vm_compute | by vm_compute | exact E |].
    exists hk, r. split; [|exact (conj Hr (conj Hv Hsum))].
    unfold toy_tree, first_tree. rewrite E. reflexivity.
  - vm_compute in E. discriminate.
Defined.

Lemma first_passes_visit_in_order_witness :
  ∃ hk, toy_tree 2 = Some hk
    ∧ ((2 ≤ length (legal_children root_ptr (space (base (shuffled toy_black)))
                      empty_board))%nat → round_robin 2 hk)
    ∧ ((length (legal_children root_ptr (space (base (shuffled toy_black)))
                  empty_board) ≤ 2)%nat →
       ∀ p x, (0 < p)%nat → hk !! p = Some x → 1 ≤ visit x).
Proof.
  destruct (sim_loop 10 (shuffled toy_black) root_ptr 2
              (expanded empty_board (space (base (shuffled toy_black)))))
    as [[hk d]|] eqn:E.
  - exists hk. split; [unfold toy_tree, first_tree; rewrite E; reflexivity|].
    apply (first_passes_visit_in_order (BD:=toy_board) 10 (shuffled toy_black)
             empty_board (space (base (shuffled toy_black))) 2 hk d);
      [by vm_compute | exact E].
  - vm_compute in E. discriminate.
Defined.

Lemma oneSim_run_length_witness :
  ∃ r played,
    oneSim_run 10 toy_black (toy_node empty_board) = Some (r, played)
    ∧ (length played ≤ free_cells (b (toy_node empty_board)))%nat
    ∧ r = Nat.even (length played)
    ∧ is_Some (play played (b (toy_node empty_board))).
Proof.
  destruct (oneSim_run 10 toy_black (toy_node empty_board)) as [[r played]|] eqn:E.
  - exists r, played. split; [reflexivity|].
    exact (oneSim_run_length (BD:=toy_board) free_cells 10 toy_black
             (toy_node empty_board) r played toy_decreasing E).
  - vm_compute in E. discriminate.
Defined.

Lemma player_new_dispatch_witness :
  Player.new (BD:=toy_board) (RNG:=toy_rng) "name=me role=black search=MCTS"
  = Some toy_player
  ∧ Player.myAgent
      <$> Player.new (BD:=toy_board) (RNG:=toy_rng) "name=me role=black search=UCT x=1"
    = Some None
  ∧ ∃ rp, Player.new (BD:=toy_board) (RNG:=toy_rng) "name=me role=black"
          = Some (Player.mk rp (Some (Player.Random rp))).
Proof.
  split; [|split].
  - assert (Hrp : random_player_new (BD:=toy_board) (RNG:=toy_rng)
                    "name=me role=black search=MCTS" = Some (base toy_black))
      by (vm_compute; reflexivity).
    destruct (player_new_dispatch (BD:=toy_board) (RNG:=toy_rng) _ _ Hrp) as [_ Hfound].
    destruct (Hfound "name=me role=black " "MCTS" "")%string as [Hnew _];
      [reflexivity | | reflexivity | by left | exact Hnew].
    intros q Hq.
    do 19 (destruct q as [|q]; [vm_compute; discriminate|]).
    simpl in Hq. lia.
  - destruct (random_player_new (BD:=toy_board) (RNG:=toy_rng)
                "name=me role=black search=UCT x=1") as [rp|] eqn:Hrp;
      [|vm_compute in Hrp; discriminate].
    destruct (player_new_dispatch (BD:=toy_board) (RNG:=toy_rng) _ _ Hrp) as [_ Hfound].
    destruct (Hfound "name=me role=black " "UCT" " x=1")%string as [Hnew _];
      [reflexivity | | reflexivity | right; by eexists | by rewrite Hnew].
    intros q Hq.
    do 19 (destruct q as [|q]; [vm_compute; discriminate|]).
    simpl in Hq. lia.
  - destruct (random_player_new (BD:=toy_board) (RNG:=toy_rng) "name=me role=black")
      as [rp|] eqn:Hrp; [|vm_compute in Hrp; discriminate].
    exists rp.
    destruct (player_new_dispatch (BD:=toy_board) (RNG:=toy_rng) _ _ Hrp) as [Hnone _].
    apply Hnone. intros q.
    do 18 (destruct q as [|q]; [vm_compute; discriminate|]).
    destruct q; discriminate.
Defined.

Lemma player_take_action_ready_witness :
  ∃ a pl',
    Player.take_action 10 toy_player empty_board = Some (a, pl')
    ∧ fair_answer (who (Player.self toy_player)) empty_board a
    ∧ Player.self pl' = Player.self toy_player
    ∧ Player.ready pl'.
Proof.
  apply (player_take_action_ready (BD:=toy_board) free_cells 10 toy_player empty_board
           toy_shuffle_permutes toy_decreasing toy_uct_above_floor).
  - split; [exact toy_black_space_ok | done].
  - vm_compute. lia.
Defined.
